(** * TeamspeakQuery: the codec, the line parser and the command queue

    A shallow embedding of [src/index.js] (class [TeamspeakQuery]) and the
    properties of its escaping codec, its response parser and its
    one-command-at-a-time session machine.

    Strings are JavaScript strings: finite sequences of UTF-16 code units.
    A code unit is a binary natural number; nothing below depends on the
    16-bit bound, so results stated for every [str] hold for every
    JavaScript string. *)

From Stdlib Require Import String Ascii.
From Stdlib Require Import List NArith ZArith Bool Arith Lia DecimalString.
From Stdlib Require Import Permutation.
Import ListNotations.

Set Warnings "-register-all".

Local Open Scope N_scope.

(** ** Strings *)

Definition char := N.
Definition str := list char.

(** [js "text"] is the JavaScript string with the given ASCII text.  Rocq
    string literals have no escape sequences: ["\n"] below is the two
    characters backslash and n. *)
Definition js (s : string) : str := map N_of_ascii (list_ascii_of_string s).

Fixpoint str_eqb (a b : str) : bool :=
  match a, b with
  | [], [] => true
  | x :: a', y :: b' => (x =? y) && str_eqb a' b'
  | _, _ => false
  end.

(** [Array.prototype.join]. *)
Fixpoint join (sep : str) (parts : list str) : str :=
  match parts with
  | [] => []
  | [p] => p
  | p :: rest => p ++ sep ++ join sep rest
  end.

(** The characters matched by [\s] in a regular expression, which are also
    the ones [String.prototype.trim] strips and the ones the string-to-number
    conversion skips: WhiteSpace and LineTerminator of ECMAScript. *)
Definition is_space (c : char) : bool :=
  ((9 <=? c) && (c <=? 13)) || (c =? 32) || (c =? 160) || (c =? 5760)
  || ((8192 <=? c) && (c <=? 8202)) || (c =? 8232) || (c =? 8233)
  || (c =? 8239) || (c =? 8287) || (c =? 12288) || (c =? 65279).

Fixpoint trimStart (s : str) : str :=
  match s with
  | c :: s' => if is_space c then trimStart s' else s
  | [] => []
  end.

Definition trimEnd (s : str) : str := rev (trimStart (rev s)).

(** [String.prototype.trim]. *)
Definition trim (s : str) : str := trimEnd (trimStart s).

(** ** Codec *)

Module Codec.

(** [s.replace(/c/g, rep)] for a pattern of one literal character. *)
Fixpoint replace1 (c : char) (rep : str) (s : str) : str :=
  match s with
  | [] => []
  | x :: s' => if x =? c then rep ++ replace1 c rep s' else x :: replace1 c rep s'
  end.

(** [s.replace(/ab/g, rep)] for a pattern of two literal characters: the
    scan goes left to right and resumes after each match. *)
Fixpoint replace2 (a b : char) (rep : str) (s : str) : str :=
  match s with
  | x :: ((y :: s'') as s') =>
      if (x =? a) && (y =? b) then rep ++ replace2 a b rep s''
      else x :: replace2 a b rep s'
  | _ => s
  end.

Definition backslash : char := 92.
Definition slash : char := 47.
Definition pipe : char := 124.
Definition LF : char := 10.
Definition CR : char := 13.
Definition TAB : char := 9.
Definition VT : char := 11.
Definition FF : char := 12.
Definition space : char := 32.
Definition equals : char := 61.

(** [static escape(str)], on a value already converted by [String(str)]:
    nine global replacements, one after the other. *)
Definition escape (s : str) : str :=
  let s := replace1 backslash (js "\\") s in
  let s := replace1 slash (js "\/") s in
  let s := replace1 pipe (js "\p") s in
  let s := replace1 LF (js "\n") s in
  let s := replace1 CR (js "\r") s in
  let s := replace1 TAB (js "\t") s in
  let s := replace1 VT (js "\v") s in
  let s := replace1 FF (js "\f") s in
  replace1 space (js "\s") s.

(** [static unescape(str)]: nine global replacements, one after the other,
    each over the whole output of the one before.  The code units 112, 110,
    114, 116, 118, 102 and 115 are the letters p, n, r, t, v, f and s. *)
Definition unescape (s : str) : str :=
  let s := replace2 backslash backslash [backslash] s in
  let s := replace2 backslash slash [slash] s in
  let s := replace2 backslash 112 [pipe] s in
  let s := replace2 backslash 110 [LF] s in
  let s := replace2 backslash 114 [CR] s in
  let s := replace2 backslash 116 [TAB] s in
  let s := replace2 backslash 118 [VT] s in
  let s := replace2 backslash 102 [FF] s in
  replace2 backslash 115 [space] s.

(** The escape table read as one substitution per character. *)
Definition escape_char (c : char) : str :=
  if c =? backslash then js "\\"
  else if c =? slash then js "\/"
  else if c =? pipe then js "\p"
  else if c =? LF then js "\n"
  else if c =? CR then js "\r"
  else if c =? TAB then js "\t"
  else if c =? VT then js "\v"
  else if c =? FF then js "\f"
  else if c =? space then js "\s"
  else [c].

(** The escape table without its first row: the character and the letter
    that follows the backslash in its escape sequence. *)
Definition table : list (char * char) :=
  [(slash, slash); (pipe, 112); (LF, 110); (CR, 114); (TAB, 116); (VT, 118);
   (FF, 102); (space, 115)].

Fixpoint lookup (c : char) (rows : list (char * char)) : option char :=
  match rows with
  | [] => None
  | (k, x) :: rest => if c =? k then Some x else lookup c rest
  end.

(** A character written with the rows given, every other one as it is. *)
Definition written_with (rows : list (char * char)) (c : char) : str :=
  match lookup c rows with
  | Some x => [backslash; x]
  | None => [c]
  end.

(** The letters of the escape sequences: p n r t v f s. *)
Definition is_escape_letter (c : char) : bool :=
  existsb (N.eqb c) [112; 110; 114; 116; 118; 102; 115].

(** No backslash of [s] is immediately followed by a character in [bad]. *)
Fixpoint no_backslash_before (bad : char -> bool) (s : str) : bool :=
  match s with
  | c :: ((c2 :: _) as rest) =>
      negb ((c =? backslash) && bad c2) && no_backslash_before bad rest
  | _ => true
  end.

(** The whole escape table, the backslash row included. *)
Definition full_table : list (char * char) := (backslash, backslash) :: table.

(** The character that the letter after a backslash stands for. *)
Definition stands_for (x : char) : char :=
  match find (fun row => snd row =? x) full_table with
  | Some row => fst row
  | None => x
  end.

(** The nine characters that [escape] rewrites. *)
Definition is_reserved (c : char) : bool :=
  match lookup c full_table with Some _ => true | None => false end.

(** [s.indexOf(c) !== -1]. *)
Definition has (c : char) (s : str) : bool := existsb (N.eqb c) s.

End Codec.

(** ** Values held by a parsed response *)

Module Value.

(** Which built-in prototype a member is inherited from. *)
Inductive builtin_owner := OnObject | OnArray.

(** The values that can be found under a key of the [params] object:
    strings taken from the line, arrays built for repeated keys, and what
    the key resolves to through the prototype chain of an object literal
    when the line never set it. *)
Inductive value :=
| VUndefined
| VStr (s : str)
| VNum (n : N)
| VArr (items : list value)
| VObjectPrototype
| VBuiltin (owner : builtin_owner) (name : str).

(** Property names that every object literal inherits from
    [Object.prototype]; [__proto__] is an accessor and is treated apart. *)
Definition object_prototype_names : list str :=
  map js ["constructor"; "hasOwnProperty"; "isPrototypeOf";
          "propertyIsEnumerable"; "toLocaleString"; "toString"; "valueOf";
          "__defineGetter__"; "__defineSetter__"; "__lookupGetter__";
          "__lookupSetter__"]%string.

(** String-keyed members of [Array.prototype] (ECMAScript 2023). *)
Definition array_prototype_names : list str :=
  map js ["at"; "concat"; "constructor"; "copyWithin"; "entries"; "every";
          "fill"; "filter"; "find"; "findIndex"; "findLast"; "findLastIndex";
          "flat"; "flatMap"; "forEach"; "includes"; "indexOf"; "join"; "keys";
          "lastIndexOf"; "map"; "pop"; "push"; "reduce"; "reduceRight";
          "reverse"; "shift"; "slice"; "some"; "sort"; "splice";
          "toLocaleString"; "toReversed"; "toSorted"; "toSpliced"; "toString";
          "unshift"; "values"; "with"]%string.

Definition proto_key : str := js "__proto__".

Definition mem (k : str) (names : list str) : bool := existsb (str_eqb k) names.

(** An object created by the literal [{ }]: its own properties in creation
    order and, once an assignment to [__proto__] has replaced its prototype
    by an array, the items of that array ([None]: the prototype is still
    [Object.prototype]). *)
Record object := { own : list (str * value); rebound : option (list value) }.

Definition empty_object : object := {| own := []; rebound := None |}.

Fixpoint assoc (k : str) (props : list (str * value)) : option value :=
  match props with
  | [] => None
  | (k', v) :: rest => if str_eqb k k' then Some v else assoc k rest
  end.

(** Overwrite the property in place, or create it at the end. *)
Fixpoint assoc_set (k : str) (v : value) (props : list (str * value))
  : list (str * value) :=
  match props with
  | [] => [(k, v)]
  | (k', v') :: rest =>
      if str_eqb k k' then (k, v) :: rest else (k', v') :: assoc_set k v rest
  end.

Definition is_digit (c : char) : bool := (48 <=? c) && (c <=? 57).

Definition digits_value (ds : str) : N :=
  fold_left (fun acc c => 10 * acc + (c - 48)) ds 0.

(** A property key that is an array index: the canonical decimal text of an
    integer below 2^32 - 1. *)
Definition index_of_key (k : str) : option nat :=
  match k with
  | [] => None
  | c :: rest =>
      if forallb is_digit k && ((negb (c =? 48)) || str_eqb rest [])
         && (digits_value k <? 4294967295)
      then Some (N.to_nat (digits_value k)) else None
  end.

(** Own properties of an array instance. *)
Definition array_own (items : list value) (k : str) : option value :=
  if str_eqb k (js "length") then Some (VNum (N.of_nat (length items)))
  else match index_of_key k with
       | Some i => nth_error items i
       | None => None
       end.

Definition from_object_prototype (o : object) (k : str) : option value :=
  if str_eqb k proto_key then
    Some (match rebound o with
          | None => VObjectPrototype
          | Some items => VArr items
          end)
  else if mem k object_prototype_names then Some (VBuiltin OnObject k)
  else None.

(** Lookup along the prototype chain, the object's own properties apart. *)
Definition inherited (o : object) (k : str) : option value :=
  match rebound o with
  | None => from_object_prototype o k
  | Some items =>
      match array_own items k with
      | Some v => Some v
      | None =>
          if mem k array_prototype_names then Some (VBuiltin OnArray k)
          else from_object_prototype o k
      end
  end.

(** [o[k]] where [k in o] holds; [None] where [k in o] is false (and [o[k]]
    is [undefined]). *)
Definition get (o : object) (k : str) : option value :=
  match assoc k (own o) with
  | Some v => Some v
  | None => inherited o k
  end.

(** [o[k] = v].  [__proto__] is never an own property: the assignment runs
    the inherited setter, which replaces the prototype when [v] is an object
    and ignores primitive values. *)
Definition set (o : object) (k : str) (v : value) : object :=
  if str_eqb k proto_key then
    match v with
    | VArr items => {| own := own o; rebound := Some items |}
    | VObjectPrototype => {| own := own o; rebound := None |}
    | _ => o
    end
  else {| own := assoc_set k v (own o); rebound := rebound o |}.

Fixpoint replace_nth (i : nat) (v : value) (items : list value) : list value :=
  match items, i with
  | [], _ => []
  | _ :: rest, O => v :: rest
  | x :: rest, S i' => x :: replace_nth i' v rest
  end.

(** [o[k].push(v)] where [o[k]] is the array [items]: the array is changed
    in place, wherever the lookup found it. *)
Definition push (o : object) (k : str) (items : list value) (v : value) : object :=
  let items' := items ++ [v] in
  match assoc k (own o) with
  | Some _ => {| own := assoc_set k (VArr items') (own o); rebound := rebound o |}
  | None =>
      if str_eqb k proto_key then {| own := own o; rebound := Some items' |}
      else match rebound o, index_of_key k with
           | Some held, Some i =>
               {| own := own o; rebound := Some (replace_nth i (VArr items') held) |}
           | _, _ => o
           end
  end.

(** *** Comparison with zero

    [v == 0]: a string is converted to a number, an array to the string of
    its items joined by commas and then to a number, [undefined] is equal to
    no number. *)

Fixpoint span (p : char -> bool) (s : str) : str * str :=
  match s with
  | c :: s' =>
      if p c then let (taken, rest) := span p s' in (c :: taken, rest)
      else ([], s)
  | [] => ([], [])
  end.

Definition nonempty (s : str) : bool :=
  match s with [] => false | _ => true end.

(** ExponentPart of a decimal literal, up to the end of the text: the
    exponent, or [None] when the text is not an exponent part. *)
Definition exponent_part (s : str) : option Z :=
  match s with
  | [] => Some 0%Z
  | e :: rest =>
      if (e =? 101) || (e =? 69) then
        let '(negative, digits) :=
          match rest with
          | 45 :: ds => (true, ds)
          | 43 :: ds => (false, ds)
          | _ => (false, rest)
          end in
        if nonempty digits && forallb is_digit digits then
          let magnitude := Z.of_N (digits_value digits) in
          Some (if negative then (- magnitude)%Z else magnitude)
        else None
      else None
  end.

(** The Number nearest to [m * 10^e] is zero: [m] is zero, or the product
    is at most half of the least positive Number, 2^-1074 (a tie goes to
    the even neighbour, zero). *)
Definition rounds_to_zero (m : N) (e : Z) : bool :=
  (m =? 0) || ((e <? 0)%Z && (Z.of_N m * 2 ^ 1075 <=? 10 ^ (- e))%Z).

(** StrUnsignedDecimalLiteral: digits with an optional fraction and an
    optional exponent; anything else (also [Infinity]) is not zero. *)
Definition decimal_is_zero (s : str) : bool :=
  let (int_part, after_int) := span is_digit s in
  let (frac_part, after_frac) :=
    match after_int with
    | 46 :: r => span is_digit r
    | _ => ([], after_int)
    end in
  if nonempty int_part || nonempty frac_part then
    match exponent_part after_frac with
    | Some e =>
        rounds_to_zero (digits_value (int_part ++ frac_part))
                       (e - Z.of_nat (List.length frac_part))
    | None => false
    end
  else false.

(** Digits of a binary, octal or hexadecimal literal that denote zero. *)
Definition all_zero_digits (ds : str) : bool :=
  nonempty ds && forallb (N.eqb 48) ds.

(** [Number(s) == 0] for a string [s]. *)
Definition string_is_zero (s : str) : bool :=
  match trim s with
  | [] => true
  | 48 :: 120 :: ds | 48 :: 88 :: ds
  | 48 :: 111 :: ds | 48 :: 79 :: ds
  | 48 :: 98 :: ds | 48 :: 66 :: ds => all_zero_digits ds
  | 43 :: r | 45 :: r => decimal_is_zero r
  | t => decimal_is_zero t
  end.

Fixpoint loosely_zero (v : value) : bool :=
  match v with
  | VUndefined => false
  | VStr s => string_is_zero s
  | VNum n => n =? 0
  | VArr [] => true
  | VArr [VUndefined] => true
  | VArr [x] => loosely_zero x
  | VArr _ => false
  | VObjectPrototype => false
  | VBuiltin _ _ => false
  end.

(** [o[k] == 0]. *)
Definition field_is_zero (o : object) (k : str) : bool :=
  match get o k with
  | Some v => loosely_zero v
  | None => false
  end.

End Value.

(** ** Line parser *)

Module Parser.
Import Codec Value.

(** [\w] (the [i] flag adds nothing to it without the [u] flag). *)
Definition is_word (c : char) : bool :=
  is_digit c || ((65 <=? c) && (c <=? 90)) || (c =? 95)
  || ((97 <=? c) && (c <=? 122)).

(** [[^\s\|]]. *)
Definition is_value_char (c : char) : bool := negb (is_space c || (c =? pipe)).

(** Case folding of the [i] flag, for the ASCII letters of the pattern. *)
Definition fold_case (c : char) : char :=
  if (97 <=? c) && (c <=? 122) then c - 32 else c.

(** A literal of the pattern at the head of [s], letter case ignored: what
    follows it. *)
Fixpoint literal_ci (pat s : str) : option str :=
  match pat, s with
  | [], _ => Some s
  | p :: pat', c :: s' =>
      if fold_case c =? fold_case p then literal_ci pat' s' else None
  | _ :: _, [] => None
  end.

(** [^error], tried where [^] holds: the matched text and what follows. *)
Definition keyword_error_at (s : str) : option (str * str) :=
  match literal_ci (js "error") s with
  | Some rest => Some (firstn 5 s, rest)
  | None => None
  end.

(** [^notify\w+]; [\w+] is greedy. *)
Definition keyword_notify_at (s : str) : option (str * str) :=
  match literal_ci (js "notify") s with
  | Some after =>
      let (word, rest) := span is_word after in
      if nonempty word then Some (firstn 6 s ++ word, rest) else None
  | None => None
  end.

(** [\w+=[^\s\|]+]: both runs are greedy, and giving characters of the
    first one back cannot help, [=] not being a word character. *)
Definition key_value_at (s : str) : option (str * str) :=
  let (key, after) := span is_word s in
  match after with
  | c :: after_eq =>
      if nonempty key && (c =? equals) then
        let (val, rest) := span is_value_char after_eq in
        if nonempty val then Some (key ++ [equals] ++ val, rest) else None
      else None
  | [] => None
  end.

(** The three alternatives of the pattern, in order, at one position. *)
Definition match_at (at_start : bool) (s : str) : option (str * str) :=
  match (if at_start then keyword_error_at s else None) with
  | Some m => Some m
  | None =>
      match (if at_start then keyword_notify_at s else None) with
      | Some m => Some m
      | None => key_value_at s
      end
  end.

(** The loop of a global match: after a match the scan resumes behind it,
    otherwise one character further.  [fuel] bounds the number of
    positions visited. *)
Fixpoint match_from (fuel : nat) (at_start : bool) (s : str) : list str :=
  match fuel with
  | O => []
  | S fuel' =>
      match s with
      | [] => []
      | _ :: tail =>
          match match_at at_start s with
          | Some (token, rest) => token :: match_from fuel' false rest
          | None => match_from fuel' false tail
          end
      end
  end.

(** [str.match(/(^error|^notify\w+|\w+=[^\s\|]+)/gi)]; the empty list
    stands for [null], the result when nothing matches. *)
Definition match_all (s : str) : list str :=
  match_from (S (List.length s)) true s.

(** [s.split(/c/)] for one literal character. *)
Fixpoint split_on (c : char) (s : str) : list str :=
  match s with
  | [] => [[]]
  | x :: s' =>
      if x =? c then [] :: split_on c s'
      else match split_on c s' with
           | piece :: rest => (x :: piece) :: rest
           | [] => [[x]]
           end
  end.

(** The characters of a piece of [split]. *)
Definition not_equals (c : char) : bool := negb (c =? equals).

(** A text matched by the third alternative of the pattern: a key of word
    characters, [=], and a value without white space and pipes. *)
Definition token_shape (t : str) : Prop :=
  exists key val,
    t = key ++ equals :: val /\
    key <> [] /\ forallb is_word key = true /\
    val <> [] /\ forallb is_value_char val = true.

(** The names of the own properties are nonempty words. *)
Definition named_by_words (o : object) : Prop :=
  forall k v, In (k, v) (own o) -> k <> [] /\ forallb is_word k = true.

(** A value that [escape] and [parse] carry unharmed: nonempty, without
    [=], with white space only of the kinds that [escape] rewrites, and with
    no backslash before one of the letters p, n, r, t, v, f, s. *)
Definition carried (v : str) : Prop :=
  v <> [] /\ has equals v = false /\
  forallb (fun c => is_reserved c || is_value_char c) v = true /\
  no_backslash_before is_escape_letter v = true.

Record response := { type : option str; params : object }.

(** The body of [parsed.forEach]: [v[0]] is the key and [v[1]] the value,
    whatever the number of pieces. *)
Definition add_field (o : object) (token : str) : object :=
  let v := map unescape (split_on equals token) in
  let key := nth 0 v (js "undefined") in
  let val := match nth_error v 1 with Some x => VStr x | None => VUndefined end in
  match get o key with
  | Some (VArr items) => push o key items val
  | Some held => set o key (VArr [held; val])
  | None => set o key val
  end.

(** [static parse(str)]. *)
Definition parse (s : str) : option response :=
  match match_all s with
  | [] => None
  | first :: others =>
      let '(resType, parsed) :=
        if negb (existsb (N.eqb equals) first) then (Some first, others)
        else (None, first :: others) in
      Some {| type := resType; params := fold_left add_field parsed empty_object |}
  end.

End Parser.

(** ** Command queue and session machine *)

Module Client.
Import Codec Value Parser.

(** A scalar handed to [send]: a string, or a Number holding a natural
    number; the constructor takes only the safe integers, which are the
    natural numbers that a Number holds exactly. *)
(** The largest integer up to which every integer is a Number:
    [Number.MAX_SAFE_INTEGER], 2^53 - 1. *)
Definition max_safe_integer : N := 9007199254740991.

Inductive scalar :=
| SStr (s : str)
| SNum (n : N) (safe : (n <=? max_safe_integer) = true).

(** [String(v)].  A Number that holds a natural number up to 2^53 - 1 is
    printed with all its decimal digits (the exponent notation starts at
    10^21). *)
Definition String_ (v : scalar) : str :=
  match v with
  | SStr s => s
  | SNum n _ => js (DecimalString.NilZero.string_of_uint (N.to_uint n))
  end.

(** Truthiness of a scalar. *)
Definition truthy (v : scalar) : bool :=
  match v with
  | SStr s => nonempty s
  | SNum n _ => negb (n =? 0)
  end.

(** The value under a key of the [options] object. *)
Inductive param := Scalar (v : scalar) | Many (vs : list scalar).

(** The second argument of [send]: missing, a plain object given by its
    own properties in the order they were created (insertion order; the keys
    of an object are distinct, and nothing below depends on it), or a
    scalar, which is then the first flag. *)
Inductive options :=
| Absent
| Params (entries : list (str * param))
| Flag (v : scalar).

(** *** The order of [for ... in]

    The loop does not visit the properties in insertion order: the keys
    that are array indices come first, in ascending numeric order, and the
    other keys follow in the order of their creation. *)

Fixpoint insert_by_index (x : nat * (str * param))
    (sorted : list (nat * (str * param))) : list (nat * (str * param)) :=
  match sorted with
  | [] => [x]
  | y :: sorted' =>
      if (fst x <? fst y)%nat then x :: y :: sorted'
      else y :: insert_by_index x sorted'
  end.

Definition sort_by_index (l : list (nat * (str * param)))
  : list (nat * (str * param)) :=
  fold_left (fun sorted x => insert_by_index x sorted) l [].

(** The properties whose key is an array index, each with its index. *)
Definition indexed (entries : list (str * param)) : list (nat * (str * param)) :=
  flat_map (fun e => match index_of_key (fst e) with
                     | Some i => [(i, e)]
                     | None => []
                     end) entries.

(** The properties whose key is not an array index. *)
Definition named (entries : list (str * param)) : list (str * param) :=
  filter (fun e => match index_of_key (fst e) with
                   | Some _ => false
                   | None => true
                   end) entries.

(** The properties in the order [for (let key in options)] visits them. *)
Definition for_in (entries : list (str * param)) : list (str * param) :=
  map snd (sort_by_index (indexed entries)) ++ named entries.

(** One turn of the [for ... in] loop of [send]. *)
Definition push_param (cmdStringParts : list str) (entry : str * param) : list str :=
  let (key, val) := entry in
  match val with
  | Many vs =>
      cmdStringParts ++
        [join [pipe]
           (map (fun v => escape key ++ [equals] ++ escape (String_ v)) vs)]
  | Scalar v =>
      cmdStringParts ++ [escape key ++ [equals] ++ escape (String_ v)]
  end.

(** The command text built by [send]: lines 49 to 67 and the [join] of
    line 70. *)
Definition serialize (cmd : str) (opts : options) (rest : list scalar) : str :=
  let '(cmdStringParts, flags) :=
    match opts with
    | Flag v => if truthy v then ([cmd], v :: rest) else ([cmd], rest)
    | Params entries => (fold_left push_param (for_in entries) [cmd], rest)
    | Absent => ([cmd], rest)
    end in
  let flags := map (fun f => escape (String_ f)) flags in
  join [space] (cmdStringParts ++ flags).

(** An entry of the queue.  [promise] names the promise whose [resolve] and
    [reject] the entry holds; [data] is absent until a data line sets it. *)
Record command := { cmd : str; promise : nat; data : option object }.

Record client := {
  queue : list command;
  _current : option command;
  _statusLines : nat
}.

(** The state the constructor leaves. *)
Definition initial : client :=
  {| queue := []; _current := None; _statusLines := 0 |}.

(** What a method does to the outside: a write to the socket (tagged with
    the promise of the command written), the settling of a promise, an
    event handed to [emit].  What the listeners of an event do, and what
    the callers waiting on a promise do, is not part of the client. *)
Inductive effect :=
| Write (p : nat) (text : str)
| Resolve (p : nat) (result : object)
| Reject (p : nat) (error : object)
| Emit (name : str) (fields : object) (line : str).

Definition checkQueue (c : client) : client * list effect :=
  match _current c, queue c with
  | None, head :: rest =>
      ({| queue := rest; _current := Some head; _statusLines := _statusLines c |},
       [Write (promise head) (cmd head ++ [LF])])
  | _, _ => (c, [])
  end.

(** [send(cmd, options, ...rest)]; [p] names the promise it returns. *)
Definition send (p : nat) (c : client) (name : str) (opts : options)
    (rest : list scalar) : client * list effect :=
  let entry := {| cmd := serialize name opts rest; promise := p; data := None |} in
  let c' := {| queue := queue c ++ [entry]; _current := _current c;
               _statusLines := _statusLines c |} in
  if (1 <? _statusLines c')%nat then checkQueue c' else (c', []).

(** [response.type && response.type.indexOf('notify') === 0]. *)
Definition is_notify (t : option str) : bool :=
  match t with
  | Some tag => nonempty tag && str_eqb (firstn 6 tag) (js "notify")
  | None => false
  end.

(** [response.type && response.type === 'error']. *)
Definition is_error (t : option str) : bool :=
  match t with
  | Some tag => nonempty tag && str_eqb tag (js "error")
  | None => false
  end.

Definition tag_text (t : option str) : str :=
  match t with Some tag => tag | None => [] end.

(** How a call ends: it returns, with the new state and what it did, or a
    TypeError is thrown for reading a property of [null] (the state is then
    as before the call, and nothing was done). *)
Inductive outcome :=
| Returned (c : client) (effects : list effect)
| TypeError.

Definition with_current (c : client) (cur : option command) : client :=
  {| queue := queue c; _current := cur; _statusLines := _statusLines c |}.

Definition with_data (cur : command) (d : object) : command :=
  {| cmd := cmd cur; promise := promise cur; data := Some d |}.

Definition handleLine (c : client) (line : str) : outcome :=
  if (_statusLines c <? 2)%nat then
    let c1 := {| queue := queue c; _current := _current c;
                 _statusLines := S (_statusLines c) |} in
    if (_statusLines c1 =? 2)%nat then
      let (c2, es) := checkQueue c1 in Returned c2 es
    else Returned c1 []
  else
    let line := trim line in
    match parse line with
    | None => Returned c []
    | Some response =>
        if is_notify (type response) then
          let (c', es) := checkQueue c in
          Returned c'
            (Emit (skipn 6 (tag_text (type response))) (params response) line :: es)
        else if is_error (type response) then
          match _current c with
          | None => TypeError
          | Some cur =>
              let settled :=
                if field_is_zero (params response) (js "id") then
                  Resolve (promise cur)
                    (match data cur with
                     | Some d => d
                     | None => params response
                     end)
                else Reject (promise cur) (params response) in
              let (c', es) := checkQueue (with_current c None) in
              Returned c' (settled :: es)
          end
        else
          let c1 :=
            match _current c with
            | Some cur => with_current c (Some (with_data cur (params response)))
            | None => c
            end in
          let (c', es) := checkQueue c1 in
          Returned c' es
    end.

(** *** Runs

    What happens to a client: calls of [send] and lines handed over by the
    line source.  A world is the client together with everything it has
    done so far and the number of promises created.  A call of [handleLine]
    that throws leaves the world as it was. *)
Inductive event :=
| Submit (name : str) (opts : options) (rest : list scalar)
| Line (line : str).

Record world := { state : client; log : list effect; promises : nat }.

Definition start : world := {| state := initial; log := []; promises := 0 |}.

Definition step (w : world) (e : event) : world :=
  match e with
  | Submit name opts rest =>
      let (c, es) := send (promises w) (state w) name opts rest in
      {| state := c; log := log w ++ es; promises := S (promises w) |}
  | Line line =>
      match handleLine (state w) line with
      | Returned c es =>
          {| state := c; log := log w ++ es; promises := promises w |}
      | TypeError => w
      end
  end.

Definition run (w : world) (events : list event) : world :=
  fold_left step events w.

(** Promises of the commands written, and of those settled, in order. *)
Definition written (l : list effect) : list nat :=
  flat_map (fun e => match e with Write p _ => [p] | _ => [] end) l.

Definition settled (l : list effect) : list nat :=
  flat_map (fun e => match e with
                     | Resolve p _ | Reject p _ => [p]
                     | _ => []
                     end) l.

(** The events published, in order. *)
Definition emitted (l : list effect) : list (str * object * str) :=
  flat_map (fun e => match e with
                     | Emit name fields line => [(name, fields, line)]
                     | _ => []
                     end) l.

(** The commands in flight after the effects [l]: written, not yet settled. *)
Definition in_flight (l : list effect) : list nat :=
  filter (fun p => negb (existsb (Nat.eqb p) (settled l))) (written l).

Definition lines_among (events : list event) : nat :=
  List.length (filter (fun e => match e with Line _ => true | _ => false end) events).

Definition submissions_among (events : list event) : nat :=
  List.length (filter (fun e => match e with Submit _ _ _ => true | _ => false end) events).

(** An untagged line, and the fields it parses to. *)
Definition data_line (line : str) (fields : object) : Prop :=
  exists r, parse (trim line) = Some r /\ type r = None /\ params r = fields.

(** The commands the client holds: the current one, then the queue. *)
Definition pending (c : client) : list command :=
  match _current c with Some cur => [cur] | None => [] end ++ queue c.

(** 1 while a command is current, 0 otherwise. *)
Definition flying (c : client) : nat :=
  match _current c with Some _ => 1%nat | None => 0%nat end.

(** What the queue discipline keeps true of a client, of the effects [l] it
    has had so far and of the number [n] of promises created: promises are
    settled in the order they were created, commands are written in that
    order too, the commands held are the ones created and not yet settled,
    and after every prefix of the effects at most one command written is
    still to be settled. *)
Record consistent (c : client) (l : list effect) (n : nat) : Prop := {
  settled_in_order : settled l = seq 0 (List.length (settled l));
  written_in_order : written l = seq 0 (List.length (settled l) + flying c);
  pending_in_order :
    map promise (pending c) =
    seq (List.length (settled l)) (List.length (pending c));
  promises_counted : n = (List.length (settled l) + List.length (pending c))%nat;
  prefixes_balanced :
    forall pre suf, l = pre ++ suf ->
      (List.length (settled pre) <= List.length (written pre)
       <= S (List.length (settled pre)))%nat
}.

Definition world_ok (w : world) : Prop :=
  consistent (state w) (log w) (promises w).

(** The texts written to the socket, in order. *)
Definition written_texts (l : list effect) : list str :=
  flat_map (fun e => match e with Write _ text => [text] | _ => [] end) l.

(** What the socket gets for a command: its text and a line feed. *)
Definition wire_text (c : command) : str := cmd c ++ [LF].

(** The wire texts of the commands submitted, in order. *)
Definition submitted_texts (events : list event) : list str :=
  flat_map (fun e => match e with
                     | Submit name opts rest => [serialize name opts rest ++ [LF]]
                     | Line _ => []
                     end) events.

(** The line is handled as a terminator in the Ready phase. *)
Definition is_terminator (line : str) : bool :=
  match parse (trim line) with
  | Some r => is_error (type r)
  | None => false
  end.

(** The lines among the events, in order. *)
Definition lines_of (events : list event) : list str :=
  flat_map (fun e => match e with Line line => [line] | Submit _ _ _ => [] end)
           events.

(** What a line publishes when it is handled in the Ready phase. *)
Definition notification_of (line : str) : list (str * object * str) :=
  match parse (trim line) with
  | Some r =>
      if is_notify (type r)
      then [(skipn 6 (tag_text (type r)), params r, trim line)]
      else []
  | None => []
  end.

(** An event that is not a terminator line. *)
Definition no_terminator (e : event) : bool :=
  match e with
  | Line line => negb (is_terminator line)
  | Submit _ _ _ => true
  end.

End Client.

(** ** The specification's wording of the command text

    Section 4.2 of the specification, kept apart from [Client.serialize],
    which follows the code. *)

Module Wording.
Import Codec Client.

(** A scalar parameter is [escape(k)=escape(v)]; a list-valued parameter is
    one run of such pairs, one per element, joined by pipes. *)
Definition pair_text (key : str) (v : scalar) : str :=
  escape key ++ [equals] ++ escape (String_ v).

Definition token (entry : str * param) : str :=
  match snd entry with
  | Scalar v => pair_text (fst entry) v
  | Many vs => join [pipe] (map (pair_text (fst entry)) vs)
  end.

(** The command name followed by the tokens, each after one space. *)
Definition command_text (name : str) (tokens : list str) : str :=
  name ++ flat_map (fun t => space :: t) tokens.

End Wording.

Import Codec Value Parser Client.

(** * Properties *)

(** ** Strings *)

Lemma str_eqb_eq (a b : str) : str_eqb a b = true <-> a = b.
Proof.
  revert b; induction a as [|x a IH]; intros [|y b]; simpl; split;
    try congruence; try reflexivity.
  - rewrite andb_true_iff, N.eqb_eq, IH. intros [-> ->]. reflexivity.
  - intros E. injection E as -> ->. rewrite N.eqb_refl. simpl.
    apply IH. reflexivity.
Qed.

Lemma join_cons (sep x : str) (l : list str) :
  join sep (x :: l) = x ++ flat_map (fun t => sep ++ t) l.
Proof.
  revert x; induction l as [|y l IH]; intros x.
  - simpl. now rewrite app_nil_r.
  - change (join sep (x :: y :: l)) with (x ++ sep ++ join sep (y :: l)).
    rewrite IH. simpl. now rewrite <- !app_assoc.
Qed.

(** ** Codec *)

Lemma replace1_app (c : char) (rep a b : str) :
  replace1 c rep (a ++ b) = replace1 c rep a ++ replace1 c rep b.
Proof.
  induction a as [|x a IH]; simpl; [reflexivity|].
  destruct (x =? c); rewrite IH; [now rewrite app_assoc | reflexivity].
Qed.

Lemma escape_app (a b : str) : escape (a ++ b) = escape a ++ escape b.
Proof. unfold escape. now rewrite !replace1_app. Qed.

Lemma escape_one (c : char) : escape [c] = escape_char c.
Proof.
  unfold escape_char, escape, backslash, slash, pipe, LF, CR, TAB, VT, FF, space.
  destruct (N.eqb_spec c 92) as [->|?]; [reflexivity|].
  destruct (N.eqb_spec c 47) as [->|?]; [reflexivity|].
  destruct (N.eqb_spec c 124) as [->|?]; [reflexivity|].
  destruct (N.eqb_spec c 10) as [->|?]; [reflexivity|].
  destruct (N.eqb_spec c 13) as [->|?]; [reflexivity|].
  destruct (N.eqb_spec c 9) as [->|?]; [reflexivity|].
  destruct (N.eqb_spec c 11) as [->|?]; [reflexivity|].
  destruct (N.eqb_spec c 12) as [->|?]; [reflexivity|].
  destruct (N.eqb_spec c 32) as [->|?]; [reflexivity|].
  simpl.
  repeat match goal with
         | H : c <> ?k |- context [c =? ?k] =>
             rewrite (proj2 (N.eqb_neq c k) H); simpl
         end.
  reflexivity.
Qed.

(** The nine replacements of [escape] never meet each other's output: the
    whole is one substitution per character of the input. *)
Lemma escape_flat_map (s : str) : escape s = flat_map escape_char s.
Proof.
  induction s as [|c s IH]; [reflexivity|].
  change (c :: s) with ([c] ++ s).
  rewrite escape_app, escape_one, IH. reflexivity.
Qed.

(** *** Where the round trip holds *)

Lemma replace2_hit (a b : char) (rep t : str) :
  replace2 a b rep (a :: b :: t) = rep ++ replace2 a b rep t.
Proof. simpl. now rewrite !N.eqb_refl. Qed.

Lemma replace2_skip (a b c : char) (rep t : str) :
  c <> a \/ hd_error t <> Some b ->
  replace2 a b rep (c :: t) = c :: replace2 a b rep t.
Proof.
  intros H. destruct t as [|y t]; [reflexivity|].
  cbn [replace2].
  destruct (N.eqb_spec c a) as [->|?]; [|reflexivity].
  destruct (N.eqb_spec y b) as [->|?]; [|reflexivity].
  destruct H as [H|H]; [congruence | now elim H].
Qed.

Lemma lookup_in (c y : char) (rows : list (char * char)) :
  lookup c rows = Some y -> In (c, y) rows.
Proof.
  induction rows as [|[k x] rows IH]; simpl; [discriminate|].
  destruct (N.eqb_spec c k) as [->|?].
  - intros E. injection E as ->. now left.
  - intros E. right. now apply IH.
Qed.

Lemma head_of_written (rows : list (char * char)) (c : char) (s : str) :
  hd_error (flat_map (written_with rows) (c :: s)) =
    Some (match lookup c rows with Some _ => backslash | None => c end).
Proof. simpl. unfold written_with. now destruct (lookup c rows). Qed.

Lemma escape_char_table (c : char) :
  escape_char c =
    if c =? backslash then [backslash; backslash] else written_with table c.
Proof.
  unfold escape_char, written_with, table, lookup,
    backslash, slash, pipe, LF, CR, TAB, VT, FF, space.
  repeat match goal with
         | |- context [c =? ?k] => destruct (c =? k); [reflexivity|]
         end.
  reflexivity.
Qed.

Lemma table_letters (c y : char) :
  lookup c table = Some y -> y <> backslash.
Proof.
  intros E. apply lookup_in in E. unfold table in E. simpl in E.
  repeat (destruct E as [E|E]; [injection E as <- <-; discriminate|]).
  contradiction.
Qed.

(** The first replacement of [unescape] on an escaped text. *)
Lemma unescape_first_pass (s : str) :
  replace2 backslash backslash [backslash] (flat_map escape_char s) =
  flat_map (written_with table) s.
Proof.
  induction s as [|c s IH]; [reflexivity|].
  cbn [flat_map]. rewrite escape_char_table.
  destruct (N.eqb_spec c backslash) as [->|Hc].
  { cbn [app]. rewrite replace2_hit, IH. reflexivity. }
  unfold written_with at 1 2.
  destruct (lookup c table) as [y|] eqn:Ey; cbn [app].
  - pose proof (table_letters c y Ey) as Hy.
    rewrite replace2_skip by (right; simpl; congruence).
    rewrite replace2_skip by (left; congruence).
    now rewrite IH.
  - rewrite replace2_skip by (left; congruence). now rewrite IH.
Qed.

(** One of the later replacements: it undoes the first row of the rows
    still written, provided no backslash of the original text stands before
    the letter of that row. *)
Lemma unescape_later_pass (ch x : char) (rows : list (char * char)) (s : str) :
  x <> backslash -> ch <> backslash ->
  lookup ch rows = None ->
  forallb (fun row => negb (snd row =? x) && negb (snd row =? backslash)
                      && negb (fst row =? backslash)) rows = true ->
  x = ch \/ no_backslash_before (N.eqb x) s = true ->
  replace2 backslash x [ch] (flat_map (written_with ((ch, x) :: rows)) s) =
  flat_map (written_with rows) s.
Proof.
  intros Hx Hch Hfresh Hrows Hsafe.
  assert (Hrow : forall c y, lookup c rows = Some y ->
                   y <> x /\ y <> backslash /\ c <> backslash).
  { intros c y E. apply lookup_in in E.
    rewrite forallb_forall in Hrows. specialize (Hrows _ E). simpl in Hrows.
    rewrite !andb_true_iff, !negb_true_iff, !N.eqb_neq in Hrows. tauto. }
  induction s as [|c s IH]; [reflexivity|].
  assert (IH' : replace2 backslash x [ch]
                  (flat_map (written_with ((ch, x) :: rows)) s) =
                flat_map (written_with rows) s).
  { apply IH. destruct Hsafe as [E|Hs]; [now left|right].
    destruct s as [|c2 s]; [reflexivity|].
    cbn [no_backslash_before] in Hs. now apply andb_true_iff in Hs. }
  clear IH. cbn [flat_map].
  unfold written_with at 1 3. cbn [lookup].
  destruct (N.eqb_spec c ch) as [->|Hne].
  { rewrite Hfresh. cbn [app]. now rewrite replace2_hit, IH'. }
  destruct (lookup c rows) as [y|] eqn:Ey.
  { destruct (Hrow c y Ey) as (Hyx & Hyb & _). cbn [app].
    rewrite replace2_skip by (right; simpl; congruence).
    rewrite replace2_skip by (left; congruence).
    now rewrite IH'. }
  cbn [app]. rewrite replace2_skip; [now rewrite IH'|].
  destruct (N.eq_dec c backslash) as [->|Hcb]; [right|now left].
  destruct s as [|c2 s]; [discriminate|].
  rewrite head_of_written. cbn [lookup].
  destruct (N.eqb_spec c2 ch) as [->|Hc2]; [congruence|].
  destruct (lookup c2 rows); [congruence|].
  destruct Hsafe as [E|Hs]; [congruence|].
  cbn [no_backslash_before] in Hs. rewrite N.eqb_refl in Hs.
  apply andb_true_iff in Hs as [Hs _]. simpl in Hs.
  apply negb_true_iff, N.eqb_neq in Hs. congruence.
Qed.

Lemma no_backslash_before_weaken (bad bad' : char -> bool) (s : str) :
  (forall c, bad' c = true -> bad c = true) ->
  no_backslash_before bad s = true -> no_backslash_before bad' s = true.
Proof.
  intros Hsub. induction s as [|c s IH]; [reflexivity|].
  destruct s as [|c2 s]; [reflexivity|].
  cbn [no_backslash_before]. rewrite !andb_true_iff, !negb_true_iff.
  intros [H1 H2]. split; [|now apply IH].
  destruct (c =? backslash); [|reflexivity]. simpl in *.
  destruct (bad' c2) eqn:E; [|reflexivity].
  rewrite (Hsub _ E) in H1. discriminate.
Qed.

Lemma written_with_nothing (s : str) : flat_map (written_with []) s = s.
Proof. induction s as [|c s IH]; [reflexivity|]. simpl. now rewrite IH. Qed.

(** The round trip does hold for every string in which no backslash is
    immediately followed by one of the letters p, n, r, t, v, f, s; in
    particular for every string without a backslash. *)
Lemma unescape_escape_away_from_letters (s : str) :
  no_backslash_before is_escape_letter s = true ->
  unescape (escape s) = s.
Proof.
  intros Hs. rewrite escape_flat_map. unfold unescape.
  rewrite unescape_first_pass. unfold table.
  assert (Hletter : forall x, is_escape_letter x = true ->
                      no_backslash_before (N.eqb x) s = true).
  { intros x Hx. apply (no_backslash_before_weaken is_escape_letter); [|exact Hs].
    intros c E. apply N.eqb_eq in E. now subst c. }
  rewrite (unescape_later_pass slash slash); try reflexivity;
    try discriminate; [|now left].
  rewrite (unescape_later_pass pipe 112); try reflexivity;
    try discriminate; [|right; now apply Hletter].
  rewrite (unescape_later_pass LF 110); try reflexivity;
    try discriminate; [|right; now apply Hletter].
  rewrite (unescape_later_pass CR 114); try reflexivity;
    try discriminate; [|right; now apply Hletter].
  rewrite (unescape_later_pass TAB 116); try reflexivity;
    try discriminate; [|right; now apply Hletter].
  rewrite (unescape_later_pass VT 118); try reflexivity;
    try discriminate; [|right; now apply Hletter].
  rewrite (unescape_later_pass FF 102); try reflexivity;
    try discriminate; [|right; now apply Hletter].
  rewrite (unescape_later_pass space 115); try reflexivity;
    try discriminate; [|right; now apply Hletter].
  apply written_with_nothing.
Qed.

(** C1: the round trip [unescape(escape(s)) == s] fails on the code.  For
    the two-character string backslash, n the escaped text is backslash,
    backslash, n; the first replacement of [unescape] leaves backslash, n,
    which its fourth replacement then reads as an escape sequence of its
    own: the result is the single line feed character. *)
Theorem unescape_reprocesses_backslash :
  escape (js "\n") = js "\\n" /\
  unescape (escape (js "\n")) = [LF] /\
  unescape (escape (js "\n")) <> js "\n".
Proof. repeat split; vm_compute; discriminate. Qed.

(** ** Parser *)

Lemma span_app (p : char -> bool) (s taken rest : str) :
  span p s = (taken, rest) -> s = taken ++ rest.
Proof.
  revert taken rest. induction s as [|c s IH]; intros taken rest; simpl.
  - intros E. injection E as <- <-. reflexivity.
  - destruct (p c).
    + destruct (span p s) as [taken' rest'] eqn:Es. intros E.
      injection E as <- <-. simpl. f_equal. now apply IH.
    + intros E. injection E as <- <-. reflexivity.
Qed.

Lemma literal_ci_length (pat s rest : str) :
  literal_ci pat s = Some rest ->
  List.length s = (List.length pat + List.length rest)%nat.
Proof.
  revert s. induction pat as [|p pat IH]; intros s; simpl.
  - intros E. injection E as <-. reflexivity.
  - destruct s as [|c s]; [discriminate|].
    destruct (fold_case c =? fold_case p); [|discriminate].
    intros E. simpl. f_equal. now apply IH.
Qed.

(** Every match consumes at least one character. *)
Lemma match_at_consumes (at_start : bool) (s token rest : str) :
  match_at at_start s = Some (token, rest) ->
  (List.length rest < List.length s)%nat.
Proof.
  unfold match_at.
  assert (Herror : forall m, keyword_error_at s = Some m ->
                     (List.length (snd m) < List.length s)%nat).
  { unfold keyword_error_at. intros m.
    destruct (literal_ci (js "error") s) as [r|] eqn:E; [|discriminate].
    intros M. injection M as <-. apply literal_ci_length in E. simpl in *. lia. }
  assert (Hnotify : forall m, keyword_notify_at s = Some m ->
                      (List.length (snd m) < List.length s)%nat).
  { unfold keyword_notify_at. intros m.
    destruct (literal_ci (js "notify") s) as [r|] eqn:E; [|discriminate].
    destruct (span is_word r) as [word r'] eqn:Es.
    destruct (nonempty word); [|discriminate].
    intros M. injection M as <-. apply literal_ci_length in E.
    apply span_app in Es. subst r. rewrite length_app in E. simpl in *. lia. }
  assert (Hpair : forall m, key_value_at s = Some m ->
                    (List.length (snd m) < List.length s)%nat).
  { unfold key_value_at. intros m.
    destruct (span is_word s) as [key after] eqn:Es.
    destruct after as [|a after]; [discriminate|].
    destruct (nonempty key && (a =? equals)); [|discriminate].
    destruct (span is_value_char after) as [val r'] eqn:Ev.
    destruct (nonempty val); [|discriminate].
    intros M. injection M as <-. apply span_app in Es, Ev. subst s after.
    simpl. rewrite !length_app. simpl. rewrite length_app. lia. }
  destruct at_start.
  - destruct (keyword_error_at s) as [m|] eqn:E1.
    { intros M. injection M as ->. now apply (Herror _ eq_refl). }
    destruct (keyword_notify_at s) as [m|] eqn:E2.
    { intros M. injection M as ->. now apply (Hnotify _ eq_refl). }
    intros M. now apply (Hpair _ M).
  - intros M. now apply (Hpair _ M).
Qed.

(** The fuel of [match_all] is never used up: any larger amount gives the
    same tokens. *)
Lemma match_from_fuel (n m : nat) (at_start : bool) (s : str) :
  (List.length s < n)%nat -> (List.length s < m)%nat ->
  match_from n at_start s = match_from m at_start s.
Proof.
  revert m at_start s. induction n as [|n IH]; intros m at_start s Hn Hm; [lia|].
  destruct m as [|m]; [lia|]. simpl.
  destruct s as [|c tail]; [reflexivity|].
  destruct (match_at at_start (c :: tail)) as [[token rest]|] eqn:E.
  - apply match_at_consumes in E. f_equal. apply IH; simpl in *; lia.
  - apply IH; simpl in *; lia.
Qed.

(** *** What a token stores *)

Lemma split_on_head (s : str) :
  exists rest, split_on equals s = fst (span not_equals s) :: rest.
Proof.
  induction s as [|c s [rest IH]]; [now exists []|].
  simpl. unfold not_equals at 1.
  destruct (c =? equals); simpl.
  - now exists (split_on equals s).
  - rewrite IH. destruct (span not_equals s) as [taken r]. simpl.
    now exists rest.
Qed.

Lemma split_on_key (key val : str) :
  forallb not_equals key = true ->
  split_on equals (key ++ equals :: val) = key :: split_on equals val.
Proof.
  induction key as [|c key IH]; simpl; [reflexivity|].
  rewrite andb_true_iff. unfold not_equals at 1. rewrite negb_true_iff.
  intros [-> Hkey]. now rewrite (IH Hkey).
Qed.

(** For a token [key=val] the field is named [unescape(key)], and the value
    stored is [unescape] of the text of [val] up to its first [=]: all of
    [val] only when it holds no [=].  The first occurrence of a name that is
    not found in the object, by itself or through its prototype chain,
    stores the value as it is; a name whose field is not a list gets the list
    of the old and the new value; a name whose field is a list gets the new
    value appended. *)
Lemma add_field_stores (o : object) (key val : str) :
  forallb not_equals key = true ->
  add_field o (key ++ equals :: val) =
    let name := unescape key in
    let stored := VStr (unescape (fst (span not_equals val))) in
    match get o name with
    | Some (VArr items) => push o name items stored
    | Some held => set o name (VArr [held; stored])
    | None => set o name stored
    end.
Proof.
  intros Hkey. unfold add_field. rewrite (split_on_key key val Hkey).
  destruct (split_on_head val) as [rest ->]. reflexivity.
Qed.

(** C6: a token is split at every [=], not once: for the line [a=b=c] the
    pattern takes the whole of [a=b=c] as one token, [split] cuts it in
    three, and the field stored is [b], not everything after the first
    [=]. *)
Theorem parse_cuts_value_at_second_equals :
  match_all (js "a=b=c") = [js "a=b=c"] /\
  parse (js "a=b=c") =
    Some {| type := None;
            params := {| own := [(js "a", VStr (js "b"))]; rebound := None |} |} /\
  get {| own := [(js "a", VStr (js "b"))]; rebound := None |} (js "a")
    <> Some (VStr (js "b=c")).
Proof. repeat split; vm_compute; discriminate. Qed.

(** C9: the first occurrence of a key does not always give a scalar.  The
    test [v[0] in params] also finds what an object literal inherits: for
    the line [toString=1] the field becomes the two-element list of the
    inherited function and ["1"].  For a key that nothing is inherited
    under, a repeated key gives the list of the values in order. *)
Theorem parse_first_occurrence_of_inherited_key :
  parse (js "toString=1") =
    Some {| type := None;
            params := {| own := [(js "toString",
                                  VArr [VBuiltin OnObject (js "toString");
                                        VStr (js "1")])];
                         rebound := None |} |} /\
  parse (js "client_id=1 client_id=2") =
    Some {| type := None;
            params := {| own := [(js "client_id",
                                  VArr [VStr (js "1"); VStr (js "2")])];
                         rebound := None |} |}.
Proof. split; vm_compute; reflexivity. Qed.

(** ** Serialization *)

Lemma fold_push_param (entries : list (str * param)) (parts : list str) :
  fold_left push_param entries parts = parts ++ map Wording.token entries.
Proof.
  revert parts; induction entries as [|[key val] entries IH]; intros parts; simpl.
  - now rewrite app_nil_r.
  - rewrite IH. destruct val; simpl; now rewrite <- app_assoc.
Qed.

Lemma checkQueue_pending (c : client) : pending (fst (checkQueue c)) = pending c.
Proof.
  unfold checkQueue.
  destruct (_current c) as [cur|] eqn:Ecur; [reflexivity|].
  destruct (queue c) as [|head rest] eqn:Equeue; [reflexivity|].
  unfold pending; simpl. now rewrite Ecur, Equeue.
Qed.

Lemma send_pending (p : nat) (c : client) (name : str) (opts : options)
    (rest : list scalar) :
  pending (fst (send p c name opts rest)) =
  pending c ++ [{| cmd := serialize name opts rest; promise := p; data := None |}].
Proof.
  unfold send. cbn [_statusLines].
  destruct (1 <? _statusLines c)%nat.
  - rewrite checkQueue_pending. unfold pending; simpl. now rewrite app_assoc.
  - unfold pending; simpl. now rewrite app_assoc.
Qed.

(** *** The order of the parameters *)

Lemma insert_by_index_permutation (x : nat * (str * param))
    (l : list (nat * (str * param))) :
  Permutation (insert_by_index x l) (x :: l).
Proof.
  induction l as [|y l IH]; simpl; [reflexivity|].
  destruct (fst x <? fst y)%nat; [reflexivity|].
  rewrite IH. apply perm_swap.
Qed.

Lemma sort_by_index_permutation (l : list (nat * (str * param))) :
  Permutation (sort_by_index l) l.
Proof.
  unfold sort_by_index.
  assert (H : forall acc,
            Permutation (fold_left (fun sorted x => insert_by_index x sorted) l acc)
                        (acc ++ l)).
  { induction l as [|x l IH]; intros acc; simpl.
    - now rewrite app_nil_r.
    - rewrite IH, insert_by_index_permutation. simpl.
      apply Permutation_middle. }
  apply (H []).
Qed.

Lemma indexed_and_named (entries : list (str * param)) :
  Permutation (map snd (indexed entries) ++ named entries) entries.
Proof.
  induction entries as [|e entries IH]; [reflexivity|].
  unfold indexed, named in *. cbn [flat_map filter].
  destruct (index_of_key (fst e)); cbn [app map snd].
  - now apply perm_skip.
  - rewrite <- Permutation_middle. now apply perm_skip.
Qed.

(** [for ... in] visits every property, once. *)
Lemma for_in_permutation (entries : list (str * param)) :
  Permutation (for_in entries) entries.
Proof.
  unfold for_in.
  apply (Permutation_trans (l' := map snd (indexed entries) ++ named entries));
    [|apply indexed_and_named].
  apply Permutation_app_tail, Permutation_map, sort_by_index_permutation.
Qed.

(** Without array indices among the keys the order is the insertion
    order. *)
Lemma for_in_without_indices (entries : list (str * param)) :
  (forall e, In e entries -> index_of_key (fst e) = None) ->
  for_in entries = entries.
Proof.
  intros H. unfold for_in.
  assert (Hi : indexed entries = [] /\ named entries = entries).
  { induction entries as [|e entries IH]; [now split|].
    unfold indexed, named in *. cbn [flat_map filter].
    rewrite (H e) by now left. cbn [app].
    destruct IH as [-> ->]; [|now split].
    intros e' He'. apply H. now right. }
  destruct Hi as [-> ->]. reflexivity.
Qed.

(** C5, as the code has it: the text [send] builds is the command name
    followed by the tokens, each after one space, in the order in which
    [for ... in] visits the keys of the options: the keys that are array
    indices first, in ascending numeric order, then the other keys in
    insertion order (so in insertion order when no key is an array index).
    Every parameter gives one token: a scalar one [escape(k)=escape(v)], a
    list-valued one a single pipe-joined run of such pairs in list order;
    the escaped flags follow.  The command that [send] appends to the
    commands held carries exactly this text, and for
    [send("clientkick", {reasonid: 5, clid: [1,2,3]})] the text is
    [clientkick reasonid=5 clid=1|clid=2|clid=3]. *)
Theorem send_serializes_parameters_in_enumeration_order (p : nat) (c : client)
    (name : str) (entries : list (str * param)) (rest : list scalar) :
  serialize name (Params entries) rest =
    Wording.command_text name
      (map Wording.token (for_in entries)
       ++ map (fun f => escape (String_ f)) rest) /\
  Permutation (for_in entries) entries /\
  ((forall e, In e entries -> index_of_key (fst e) = None) ->
   serialize name (Params entries) rest =
     Wording.command_text name
       (map Wording.token entries ++ map (fun f => escape (String_ f)) rest)) /\
  pending (fst (send p c name (Params entries) rest)) =
    pending c ++ [{| cmd := serialize name (Params entries) rest;
                     promise := p; data := None |}] /\
  serialize (js "clientkick")
    (Params [(js "reasonid", Scalar (SNum 5 eq_refl));
             (js "clid", Many [SNum 1 eq_refl; SNum 2 eq_refl; SNum 3 eq_refl])])
    [] =
    js "clientkick reasonid=5 clid=1|clid=2|clid=3".
Proof.
  assert (Htext : serialize name (Params entries) rest =
                  Wording.command_text name
                    (map Wording.token (for_in entries)
                     ++ map (fun f => escape (String_ f)) rest)).
  { unfold serialize, Wording.command_text.
    rewrite fold_push_param.
    change ([name] ++ map Wording.token (for_in entries))
      with (name :: map Wording.token (for_in entries)).
    simpl app. rewrite join_cons. reflexivity. }
  split; [exact Htext|].
  split; [apply for_in_permutation|].
  split; [|split].
  - intros Hnamed. rewrite Htext. now rewrite (for_in_without_indices entries Hnamed).
  - apply send_pending.
  - vm_compute. reflexivity.
Qed.

(** Keys that are array indices move to the front; without them the
    insertion order is kept. *)
Lemma send_serializes_parameters_in_enumeration_order_witness :
  serialize (js "channelcreate")
    (Params [(js "channel_name", Scalar (SStr (js "My Channel")));
             (js "10", Scalar (SNum 1 eq_refl));
             (js "2", Scalar (SNum 7 eq_refl));
             (js "cpid", Scalar (SNum 0 eq_refl))]) [] =
    Wording.command_text (js "channelcreate")
      (map Wording.token
         [(js "2", Scalar (SNum 7 eq_refl));
          (js "10", Scalar (SNum 1 eq_refl));
          (js "channel_name", Scalar (SStr (js "My Channel")));
          (js "cpid", Scalar (SNum 0 eq_refl))] ++ []) /\
  serialize (js "clientkick")
    (Params [(js "reasonid", Scalar (SNum 5 eq_refl));
             (js "clid", Many [SNum 1 eq_refl; SNum 2 eq_refl])]) [] =
    Wording.command_text (js "clientkick")
      (map Wording.token
         [(js "reasonid", Scalar (SNum 5 eq_refl));
          (js "clid", Many [SNum 1 eq_refl; SNum 2 eq_refl])] ++ []).
Proof.
  split.
  - apply (proj1 (send_serializes_parameters_in_enumeration_order 0 initial
             (js "channelcreate")
             [(js "channel_name", Scalar (SStr (js "My Channel")));
              (js "10", Scalar (SNum 1 eq_refl));
              (js "2", Scalar (SNum 7 eq_refl));
              (js "cpid", Scalar (SNum 0 eq_refl))] [])).
  - apply (proj1 (proj2 (proj2 (send_serializes_parameters_in_enumeration_order
             0 initial (js "clientkick")
             [(js "reasonid", Scalar (SNum 5 eq_refl));
              (js "clid", Many [SNum 1 eq_refl; SNum 2 eq_refl])] [])))).
    intros e [<-|[<-|[]]]; reflexivity.
Defined.

(** C5 as stated does not hold: the tokens are not always in insertion
    order.  For [send("x", {b: 1, 0: 2})] the loop visits the key [0] before
    the key [b], and the text is [x 0=2 b=1]. *)
Lemma tokens_are_not_in_insertion_order :
  serialize (js "x")
    (Params [(js "b", Scalar (SNum 1 eq_refl));
             (js "0", Scalar (SNum 2 eq_refl))]) [] = js "x 0=2 b=1" /\
  ~ (forall (name : str) (entries : list (str * param)) (rest : list scalar),
       serialize name (Params entries) rest =
         Wording.command_text name
           (map Wording.token entries
            ++ map (fun f => escape (String_ f)) rest)).
Proof.
  split; [vm_compute; reflexivity|].
  intros H.
  specialize (H (js "x")
                [(js "b", Scalar (SNum 1 eq_refl));
                 (js "0", Scalar (SNum 2 eq_refl))] []).
  vm_compute in H. discriminate H.
Qed.

(** ** Line handling, case by case *)

Lemma checkQueue_busy (c : client) (cur : command) :
  _current c = Some cur -> checkQueue c = (c, []).
Proof. unfold checkQueue. now intros ->. Qed.

Lemma checkQueue_nothing_queued (c : client) :
  queue c = [] -> checkQueue c = (c, []).
Proof. unfold checkQueue. intros ->. now destruct (_current c). Qed.

Lemma checkQueue_dispatch (c : client) (head : command) (rest : list command) :
  _current c = None -> queue c = head :: rest ->
  checkQueue c =
    ({| queue := rest; _current := Some head; _statusLines := _statusLines c |},
     [Write (promise head) (cmd head ++ [LF])]).
Proof. unfold checkQueue. now intros -> ->. Qed.

Lemma error_tag_is_no_notification (t : option str) :
  is_error t = true -> is_notify t = false.
Proof.
  destruct t as [tag|]; simpl; [|reflexivity].
  rewrite andb_true_iff, str_eqb_eq. intros [_ ->]. reflexivity.
Qed.

Lemma notify_tag (t : option str) :
  is_notify t = true <-> exists name, t = Some (js "notify" ++ name).
Proof.
  split.
  - destruct t as [tag|]; [|discriminate].
    unfold is_notify. rewrite andb_true_iff, str_eqb_eq. intros [_ E].
    exists (skipn 6 tag). f_equal. rewrite <- E.
    symmetry. apply firstn_skipn.
  - intros [name ->]. reflexivity.
Qed.

Lemma ready_test (c : client) :
  (2 <= _statusLines c)%nat -> (_statusLines c <? 2)%nat = false.
Proof. intros H. apply Nat.ltb_ge. exact H. Qed.

Lemma run_app (w : world) (a b : list event) :
  run w (a ++ b) = run (run w a) b.
Proof. apply fold_left_app. Qed.

Lemma run_cons (w : world) (e : event) (rest : list event) :
  run w (e :: rest) = run (step w e) rest.
Proof. reflexivity. Qed.

Lemma run_snoc (w : world) (events : list event) (e : event) :
  run w (events ++ [e]) = step (run w events) e.
Proof. now rewrite run_app. Qed.

Lemma handleLine_notification (c : client) (line name : str) (r : response) :
  (2 <= _statusLines c)%nat ->
  parse (trim line) = Some r ->
  type r = Some (js "notify" ++ name) ->
  handleLine c line =
    Returned (fst (checkQueue c))
             (Emit name (params r) (trim line) :: snd (checkQueue c)).
Proof.
  intros Hready Hparse Htag. unfold handleLine.
  rewrite (ready_test c Hready), Hparse, Htag.
  change (is_notify (Some (js "notify" ++ name))) with true. cbv iota.
  destruct (checkQueue c) as [c' es]. reflexivity.
Qed.

Lemma handleLine_terminator (c : client) (line : str) (r : response)
    (cur : command) :
  (2 <= _statusLines c)%nat ->
  parse (trim line) = Some r ->
  is_error (type r) = true ->
  _current c = Some cur ->
  handleLine c line =
    Returned (fst (checkQueue (with_current c None)))
      ((if field_is_zero (params r) (js "id") then
          Resolve (promise cur)
            (match data cur with Some d => d | None => params r end)
        else Reject (promise cur) (params r))
       :: snd (checkQueue (with_current c None))).
Proof.
  intros Hready Hparse Htag Hcur. unfold handleLine.
  rewrite (ready_test c Hready), Hparse,
    (error_tag_is_no_notification _ Htag), Htag, Hcur.
  destruct (checkQueue (with_current c None)) as [c' es]. reflexivity.
Qed.

Lemma handleLine_data (c : client) (line : str) (r : response) (cur : command) :
  (2 <= _statusLines c)%nat ->
  parse (trim line) = Some r ->
  type r = None ->
  _current c = Some cur ->
  handleLine c line =
    Returned (with_current c (Some (with_data cur (params r)))) [].
Proof.
  intros Hready Hparse Htag Hcur. unfold handleLine.
  rewrite (ready_test c Hready), Hparse, Htag, Hcur. simpl.
  reflexivity.
Qed.

(** C10: a terminator line handled while no command is current makes
    [handleLine] read a property of [null]: the call fails with a TypeError
    instead of discarding the line. *)
Theorem terminator_without_current_fails (c : client) (line : str)
    (r : response) :
  (2 <= _statusLines c)%nat ->
  parse (trim line) = Some r ->
  is_error (type r) = true ->
  _current c = None ->
  handleLine c line = TypeError.
Proof.
  intros Hready Hparse Htag Hcur. unfold handleLine.
  rewrite (ready_test c Hready), Hparse,
    (error_tag_is_no_notification _ Htag), Htag, Hcur.
  reflexivity.
Qed.

(** An unsolicited error line right after the banner. *)
Lemma terminator_without_current_fails_witness :
  handleLine (state (run start [Line (js "TS3"); Line (js "Welcome")]))
             (js "error id=1024 msg=invalid\sserverID") = TypeError.
Proof.
  eapply terminator_without_current_fails.
  - vm_compute. lia.
  - vm_compute. reflexivity.
  - vm_compute. reflexivity.
  - vm_compute. reflexivity.
Defined.

(** C3: a terminator line handled while the command [cur] is current
    settles [cur]: successfully when [id == 0], with the data accumulated if
    there is any and with the terminator's own fields otherwise; as a
    failure carrying the terminator's fields when [id] is not zero.  In both
    cases [cur] is dropped and [checkQueue] runs on the client with no
    current command: the head of the queue, if there is one, becomes the
    current command. *)
Theorem terminator_settles_current (c : client) (line : str) (r : response)
    (cur : command) :
  (2 <= _statusLines c)%nat ->
  parse (trim line) = Some r ->
  is_error (type r) = true ->
  _current c = Some cur ->
  exists c' es,
    handleLine c line =
      Returned c'
        ((if field_is_zero (params r) (js "id") then
            Resolve (promise cur)
              (match data cur with Some d => d | None => params r end)
          else Reject (promise cur) (params r)) :: es) /\
    (c', es) = checkQueue (with_current c None) /\
    pending c' = queue c /\
    _current c' = hd_error (queue c) /\
    settled es = [].
Proof.
  intros Hready Hparse Htag Hcur.
  exists (fst (checkQueue (with_current c None))),
         (snd (checkQueue (with_current c None))).
  split; [now apply handleLine_terminator|].
  split; [now destruct (checkQueue (with_current c None))|].
  split; [now rewrite checkQueue_pending|].
  unfold checkQueue; simpl. destruct (queue c); split; reflexivity.
Qed.

Lemma terminator_settles_current_witness :
  exists c' es,
    handleLine
      {| queue := [{| cmd := js "whoami"; promise := 1; data := None |}];
         _current := Some {| cmd := js "version"; promise := 0; data := None |};
         _statusLines := 2 |}
      (js "error id=0 msg=ok") =
      Returned c'
        (Resolve 0 {| own := [(js "id", VStr (js "0")); (js "msg", VStr (js "ok"))];
                      rebound := None |} :: es) /\
    (c', es) =
      checkQueue
        {| queue := [{| cmd := js "whoami"; promise := 1; data := None |}];
           _current := None; _statusLines := 2 |} /\
    pending c' = [{| cmd := js "whoami"; promise := 1; data := None |}] /\
    _current c' = Some {| cmd := js "whoami"; promise := 1; data := None |} /\
    settled es = [].
Proof.
  apply (terminator_settles_current
           {| queue := [{| cmd := js "whoami"; promise := 1; data := None |}];
              _current := Some {| cmd := js "version"; promise := 0; data := None |};
              _statusLines := 2 |}
           (js "error id=0 msg=ok")
           {| type := Some (js "error");
              params := {| own := [(js "id", VStr (js "0")); (js "msg", VStr (js "ok"))];
                           rebound := None |} |}
           {| cmd := js "version"; promise := 0; data := None |}).
  - simpl. lia.
  - vm_compute. reflexivity.
  - vm_compute. reflexivity.
  - reflexivity.
Defined.

(** ** Notifications *)

Lemma checkQueue_settled_client (c : client) :
  (_current c = None -> queue c = []) -> checkQueue c = (c, []).
Proof.
  intros H. destruct (_current c) as [cur|] eqn:Ecur.
  - now apply (checkQueue_busy c cur).
  - apply checkQueue_nothing_queued. now apply H.
Qed.

(** After [checkQueue] a client without a current command has an empty
    queue. *)
Lemma checkQueue_leaves_no_idle_queue (c : client) :
  _current (fst (checkQueue c)) = None -> queue (fst (checkQueue c)) = [].
Proof.
  unfold checkQueue. destruct (_current c) as [cur|] eqn:Hcur.
  - simpl. now rewrite Hcur.
  - destruct (queue c) as [|head rest] eqn:Hq; simpl; [now rewrite Hq|discriminate].
Qed.

Ltac ends_with_checkQueue :=
  match goal with
  | |- context [checkQueue ?x] =>
      let c' := fresh "c" in
      let es := fresh "es" in
      let E := fresh "E" in
      destruct (checkQueue x) as [c' es] eqn:E; cbn [state]; intros _;
      change c' with (fst (c', es)); rewrite <- E;
      apply checkQueue_leaves_no_idle_queue
  end.

(** In the Ready phase every client reached from the constructor's state
    that has no current command has an empty queue. *)
Lemma idle_client_has_empty_queue (events : list event) :
  (2 <= _statusLines (state (run start events)))%nat ->
  _current (state (run start events)) = None ->
  queue (state (run start events)) = [].
Proof.
  induction events as [|e events IH] using rev_ind; [simpl; lia|].
  rewrite run_snoc. set (w := run start events) in *.
  destruct e as [name opts rest | line]; cbn [step].
  - unfold send. cbn [_statusLines].
    destruct (Nat.ltb_spec 1 (_statusLines (state w))) as [Hlt|Hge].
    + ends_with_checkQueue.
    + cbn [state _statusLines]. lia.
  - unfold handleLine.
    destruct (Nat.ltb_spec (_statusLines (state w)) 2) as [Hlt|Hge].
    + cbn [_statusLines].
      destruct (Nat.eqb_spec (S (_statusLines (state w))) 2) as [E2|N2].
      * ends_with_checkQueue.
      * cbn [state _statusLines]. lia.
    + destruct (parse (trim line)) as [r|]; [|cbn [state]; now apply IH].
      destruct (is_notify (type r)).
      { ends_with_checkQueue. }
      destruct (is_error (type r)).
      { destruct (_current (state w)) eqn:Hcur;
          [|cbn [state]; intros _ _; now apply IH].
        ends_with_checkQueue. }
      ends_with_checkQueue.
Qed.

(** C8, as the code has it: in the Ready phase a line whose tag is
    [notify] followed by [name] emits exactly one event, [name], carrying
    the parsed fields and the line with the white space around it trimmed
    off (the text that was parsed, not the line as received); then
    [checkQueue] runs.  A command in flight stays as it is, with its
    accumulated data: the client is unchanged and nothing else is done.  The
    same holds of a client without a current command whose queue is empty,
    which is every idle client in the Ready phase. *)
Theorem notification_emits_once_and_keeps_command (c : client)
    (line name : str) (r : response) :
  (2 <= _statusLines c)%nat ->
  parse (trim line) = Some r ->
  type r = Some (js "notify" ++ name) ->
  exists c' es,
    handleLine c line = Returned c' (Emit name (params r) (trim line) :: es) /\
    (c', es) = checkQueue c /\
    emitted (Emit name (params r) (trim line) :: es) =
      [(name, params r, trim line)] /\
    ((_current c = None -> queue c = []) -> c' = c /\ es = []).
Proof.
  intros Hready Hparse Htag.
  exists (fst (checkQueue c)), (snd (checkQueue c)).
  split; [now apply handleLine_notification|].
  split; [now destruct (checkQueue c)|].
  split.
  - unfold checkQueue. destruct (_current c); [reflexivity|].
    destruct (queue c); reflexivity.
  - intros Hidle. now rewrite (checkQueue_settled_client c Hidle).
Qed.

Lemma notification_emits_once_and_keeps_command_witness :
  exists c' es,
    handleLine
      {| queue := [];
         _current := Some {| cmd := js "clientlist"; promise := 3;
                             data := Some {| own := [(js "clid", VStr (js "1"))];
                                             rebound := None |} |};
         _statusLines := 2 |}
      (CR :: js "notifyclientmoved clid=5 ctid=3") =
      Returned c'
        (Emit (js "clientmoved")
              {| own := [(js "clid", VStr (js "5")); (js "ctid", VStr (js "3"))];
                 rebound := None |}
              (trim (CR :: js "notifyclientmoved clid=5 ctid=3")) :: es) /\
    (c', es) =
      checkQueue
        {| queue := [];
           _current := Some {| cmd := js "clientlist"; promise := 3;
                               data := Some {| own := [(js "clid", VStr (js "1"))];
                                               rebound := None |} |};
           _statusLines := 2 |} /\
    emitted
      (Emit (js "clientmoved")
            {| own := [(js "clid", VStr (js "5")); (js "ctid", VStr (js "3"))];
               rebound := None |}
            (trim (CR :: js "notifyclientmoved clid=5 ctid=3")) :: es) =
      [(js "clientmoved",
        {| own := [(js "clid", VStr (js "5")); (js "ctid", VStr (js "3"))];
           rebound := None |},
        trim (CR :: js "notifyclientmoved clid=5 ctid=3"))] /\
    ((_current
        {| queue := [];
           _current := Some {| cmd := js "clientlist"; promise := 3;
                               data := Some {| own := [(js "clid", VStr (js "1"))];
                                               rebound := None |} |};
           _statusLines := 2 |} = None ->
      queue
        {| queue := [];
           _current := Some {| cmd := js "clientlist"; promise := 3;
                               data := Some {| own := [(js "clid", VStr (js "1"))];
                                               rebound := None |} |};
           _statusLines := 2 |} = []) ->
     c' =
       {| queue := [];
          _current := Some {| cmd := js "clientlist"; promise := 3;
                              data := Some {| own := [(js "clid", VStr (js "1"))];
                                              rebound := None |} |};
          _statusLines := 2 |} /\
     es = []).
Proof.
  apply (notification_emits_once_and_keeps_command
           {| queue := [];
              _current := Some {| cmd := js "clientlist"; promise := 3;
                                  data := Some {| own := [(js "clid", VStr (js "1"))];
                                                  rebound := None |} |};
              _statusLines := 2 |}
           (CR :: js "notifyclientmoved clid=5 ctid=3") (js "clientmoved")
           {| type := Some (js "notifyclientmoved");
              params := {| own := [(js "clid", VStr (js "5"));
                                   (js "ctid", VStr (js "3"))];
                           rebound := None |} |}).
  - simpl. lia.
  - vm_compute. reflexivity.
  - reflexivity.
Defined.

(** C8 as stated does not hold: the event does not carry the line as it
    was received.  A line that arrives with a carriage return in front (the
    server ends its lines with line feed, carriage return) is emitted
    without it. *)
Lemma notification_does_not_carry_the_raw_line :
  ~ (forall (c : client) (line name : str) (r : response),
       (2 <= _statusLines c)%nat ->
       parse (trim line) = Some r ->
       type r = Some (js "notify" ++ name) ->
       (_current c = None -> queue c = []) ->
       handleLine c line = Returned c [Emit name (params r) line]).
Proof.
  intros H.
  specialize (H {| queue := []; _current := None; _statusLines := 2 |}
                (CR :: js "notifyclientmoved clid=5 ctid=3")
                (js "clientmoved")
                {| type := Some (js "notifyclientmoved");
                   params := {| own := [(js "clid", VStr (js "5"));
                                        (js "ctid", VStr (js "3"))];
                                rebound := None |} |}).
  assert (Hready : (2 <= 2)%nat) by lia.
  specialize (H Hready eq_refl eq_refl (fun _ => eq_refl)).
  vm_compute in H. discriminate H.
Qed.

(** ** Data lines *)

Lemma step_data_line (w : world) (cur : command) (line : str) (fields : object) :
  (2 <= _statusLines (state w))%nat ->
  _current (state w) = Some cur ->
  data_line line fields ->
  step w (Line line) =
    {| state := with_current (state w) (Some (with_data cur fields));
       log := log w; promises := promises w |}.
Proof.
  intros Hready Hcur (r & Hparse & Htag & <-). simpl.
  rewrite (handleLine_data _ _ r cur Hready Hparse Htag Hcur).
  now rewrite app_nil_r.
Qed.

Lemma run_data_lines (lines : list str) (w : world) (cur : command) :
  (2 <= _statusLines (state w))%nat ->
  _current (state w) = Some cur ->
  Forall (fun l => exists fields, data_line l fields) lines ->
  exists cur',
    promise cur' = promise cur /\
    run w (map Line lines) =
      {| state := with_current (state w) (Some cur');
         log := log w; promises := promises w |}.
Proof.
  revert w cur. induction lines as [|l lines IH]; intros w cur Hready Hcur Hall.
  - exists cur. split; [reflexivity|]. simpl.
    destruct w as [[q c n] lg pr]. simpl in *. now subst c.
  - inversion Hall as [|? ? [fields Hl] Hrest]; subst.
    simpl map. rewrite run_cons.
    rewrite (step_data_line w cur l fields Hready Hcur Hl).
    destruct (IH {| state := with_current (state w) (Some (with_data cur fields));
                    log := log w; promises := promises w |}
                 (with_data cur fields)) as (cur' & Hp & Hrun);
      [exact Hready | reflexivity | exact Hrest |].
    exists cur'. split; [exact Hp|]. rewrite Hrun. reflexivity.
Qed.

(** C7: while the command [cur] is in flight, an untagged data line
    replaces the data accumulated for it by its own fields, and after one or
    more data lines a terminator with [id == 0] resolves [cur] with the
    fields of the last data line, not with the terminator's. *)
Theorem last_data_line_is_the_result (w : world) (cur : command)
    (earlier : list str) (last terminator : str) (fields : object)
    (t : response) :
  (2 <= _statusLines (state w))%nat ->
  _current (state w) = Some cur ->
  Forall (fun l => exists f, data_line l f) earlier ->
  data_line last fields ->
  parse (trim terminator) = Some t ->
  is_error (type t) = true ->
  field_is_zero (params t) (js "id") = true ->
  handleLine (state w) last =
    Returned (with_current (state w) (Some (with_data cur fields))) [] /\
  log (run w (map Line (earlier ++ [last; terminator]))) =
    log w ++ Resolve (promise cur) fields
          :: snd (checkQueue (with_current (state w) None)).
Proof.
  intros Hready Hcur Hearlier Hlast Hparse Htag Hzero. split.
  - destruct Hlast as (r & Hp & Ht & <-). now apply handleLine_data.
  - rewrite map_app, run_app.
    destruct (run_data_lines earlier w cur Hready Hcur Hearlier)
      as (cur' & Hpromise & ->).
    simpl map. rewrite !run_cons.
    rewrite (step_data_line _ cur' last fields); [|exact Hready|reflexivity|exact Hlast].
    cbn [run fold_left step state log promises].
    rewrite (handleLine_terminator _ terminator t (with_data cur' fields));
      [|exact Hready|exact Hparse|exact Htag|reflexivity].
    rewrite Hzero. cbn [log data with_data promise]. rewrite Hpromise.
    reflexivity.
Qed.

(** ** The queue discipline *)

Lemma written_app (a b : list effect) : written (a ++ b) = written a ++ written b.
Proof. apply flat_map_app. Qed.

Lemma settled_app (a b : list effect) : settled (a ++ b) = settled a ++ settled b.
Proof. apply flat_map_app. Qed.

Lemma prefix_snoc {A : Type} (l pre suf : list A) (e : A) :
  l ++ [e] = pre ++ suf ->
  (exists suf', l = pre ++ suf') \/ pre = l ++ [e].
Proof.
  destruct suf as [|x suf] using rev_ind.
  - rewrite app_nil_r. intros <-. now right.
  - rewrite app_assoc. intros E. apply app_inj_tail in E as [E _].
    left. now exists suf.
Qed.

Lemma seq_prefix (a b : list nat) (s n : nat) :
  a ++ b = seq s n -> a = seq s (List.length a).
Proof.
  revert s n. induction a as [|x a IH]; intros s n E; [reflexivity|].
  destruct n as [|n]; [discriminate|].
  simpl in E. injection E as -> E. simpl. f_equal. now apply (IH _ n).
Qed.

Section Consistency.

Variables (c : client) (l : list effect) (n : nat).
Hypothesis Hc : consistent c l n.

(** Effects that neither write nor settle keep the discipline. *)
Lemma consistent_silent (e : effect) :
  written [e] = [] -> settled [e] = [] -> consistent c (l ++ [e]) n.
Proof.
  intros Hw Hs. destruct Hc as [H1 H2 H3 H4 H5].
  constructor; rewrite ?settled_app, ?written_app, ?Hw, ?Hs, ?app_nil_r; auto.
  intros pre suf E. apply prefix_snoc in E as [[suf' E]| ->].
  - now apply (H5 pre suf').
  - rewrite settled_app, written_app, Hw, Hs, !app_nil_r.
    apply (H5 l []). now rewrite app_nil_r.
Qed.

(** Replacing the client by one that holds the same promises. *)
Lemma consistent_same_promises (c' : client) :
  flying c' = flying c ->
  map promise (pending c') = map promise (pending c) ->
  consistent c' l n.
Proof.
  intros Hf Hp. destruct Hc as [H1 H2 H3 H4 H5].
  assert (Hlen : List.length (pending c') = List.length (pending c)).
  { rewrite <- (length_map promise (pending c')), Hp. apply length_map. }
  constructor; rewrite ?Hf, ?Hp, ?Hlen; auto.
Qed.

Lemma consistent_enqueue (text : str) :
  consistent
    {| queue := queue c ++ [{| cmd := text; promise := n; data := None |}];
       _current := _current c; _statusLines := _statusLines c |} l (S n).
Proof.
  destruct Hc as [H1 H2 H3 H4 H5].
  assert (Hpend : pending
            {| queue := queue c ++ [{| cmd := text; promise := n; data := None |}];
               _current := _current c; _statusLines := _statusLines c |} =
          pending c ++ [{| cmd := text; promise := n; data := None |}]).
  { unfold pending; simpl. now rewrite app_assoc. }
  constructor; auto.
  - rewrite Hpend, map_app, H3, length_app. simpl.
    rewrite Nat.add_1_r, seq_S. f_equal. f_equal. exact H4.
  - rewrite Hpend, length_app. simpl. lia.
Qed.

Lemma consistent_settle (cur : command) (e : effect) :
  _current c = Some cur ->
  settled [e] = [promise cur] -> written [e] = [] ->
  consistent (with_current c None) (l ++ [e]) n.
Proof.
  intros Hcur Hs Hw. destruct Hc as [H1 H2 H3 H4 H5].
  assert (Hpend : pending c = cur :: queue c) by (unfold pending; now rewrite Hcur).
  assert (Hfly : flying c = 1%nat) by (unfold flying; now rewrite Hcur).
  rewrite Hpend in H3, H4. simpl in H3, H4.
  injection H3 as Hp Hq.
  constructor; rewrite ?settled_app, ?written_app, ?Hs, ?Hw, ?app_nil_r,
    ?length_app; simpl List.length.
  - rewrite Nat.add_1_r, seq_S, <- H1, Hp. reflexivity.
  - rewrite H2, Hfly. unfold flying; simpl. f_equal. lia.
  - unfold pending; simpl. rewrite Hq. f_equal. lia.
  - unfold pending; simpl. lia.
  - intros pre suf E. apply prefix_snoc in E as [[suf' E]| ->].
    + now apply (H5 pre suf').
    + rewrite settled_app, written_app, Hs, Hw, app_nil_r, length_app.
      simpl. rewrite H2, length_seq, Hfly. lia.
Qed.

Lemma consistent_checkQueue :
  consistent (fst (checkQueue c)) (l ++ snd (checkQueue c)) n.
Proof.
  destruct (_current c) as [cur|] eqn:Hcur.
  { rewrite (checkQueue_busy c cur Hcur). simpl. now rewrite app_nil_r. }
  destruct (queue c) as [|head rest] eqn:Hq.
  { rewrite (checkQueue_nothing_queued c Hq). simpl. now rewrite app_nil_r. }
  rewrite (checkQueue_dispatch c head rest Hcur Hq). simpl.
  destruct Hc as [H1 H2 H3 H4 H5].
  assert (Hpend : pending c = head :: rest) by (unfold pending; now rewrite Hcur, Hq).
  assert (Hfly : flying c = 0%nat) by (unfold flying; now rewrite Hcur).
  rewrite Hpend in H3, H4. simpl in H3, H4. injection H3 as Hp Hr.
  constructor; rewrite ?settled_app, ?written_app; simpl; rewrite ?app_nil_r; auto.
  - rewrite H2, Hfly, Nat.add_0_r, Nat.add_1_r, seq_S, Hp. reflexivity.
  - unfold pending; simpl. now rewrite Hp, Hr.
  - intros pre suf E. apply prefix_snoc in E as [[suf' E]| ->].
    + now apply (H5 pre suf').
    + rewrite settled_app, written_app, !length_app. simpl.
      rewrite H2, length_seq, Hfly. lia.
Qed.

End Consistency.

Lemma start_ok : world_ok start.
Proof.
  constructor; try reflexivity.
  intros pre suf E. destruct pre; [simpl; lia | discriminate].
Qed.

Lemma consistent_then_checkQueue (c : client) (l : list effect) (n : nat) :
  consistent c l n ->
  forall c' es, checkQueue c = (c', es) -> consistent c' (l ++ es) n.
Proof.
  intros Hc c' es E.
  change c' with (fst (c', es)). change es with (snd (c', es)) at 2.
  rewrite <- E. now apply consistent_checkQueue.
Qed.

Lemma step_ok (w : world) (e : event) : world_ok w -> world_ok (step w e).
Proof.
  unfold world_ok. destruct w as [c l n]. simpl. intros Hc.
  destruct e as [name opts rest | line]; simpl.
  - unfold send. cbn [_statusLines].
    pose proof (consistent_enqueue c l n Hc (serialize name opts rest)) as Hq.
    destruct (1 <? _statusLines c)%nat.
    + destruct (checkQueue _) as [c' es] eqn:E. simpl.
      now apply (consistent_then_checkQueue _ _ _ Hq c' es).
    + simpl. now rewrite app_nil_r.
  - unfold handleLine.
    destruct (_statusLines c <? 2)%nat.
    + cbn [_statusLines].
      assert (H1 : consistent
                {| queue := queue c; _current := _current c;
                   _statusLines := S (_statusLines c) |} l n)
        by (apply (consistent_same_promises c l n Hc); reflexivity).
      destruct (S (_statusLines c) =? 2)%nat.
      * destruct (checkQueue _) as [c' es] eqn:E. simpl.
        now apply (consistent_then_checkQueue _ _ _ H1 c' es).
      * simpl. now rewrite app_nil_r.
    + destruct (parse (trim line)) as [r|]; [|simpl; now rewrite app_nil_r].
      destruct (is_notify (type r)).
      { destruct (checkQueue c) as [c' es] eqn:E. simpl.
        change (l ++ ?x :: es) with (l ++ [x] ++ es). rewrite app_assoc.
        apply (consistent_then_checkQueue c); [|exact E].
        now apply consistent_silent. }
      destruct (is_error (type r)).
      { destruct (_current c) as [cur|] eqn:Hcur; [|exact Hc].
        destruct (checkQueue (with_current c None)) as [c' es] eqn:E. simpl.
        change (l ++ ?x :: es) with (l ++ [x] ++ es). rewrite app_assoc.
        apply (consistent_then_checkQueue (with_current c None)); [|exact E].
        apply (consistent_settle c l n Hc cur); [exact Hcur | |];
          now destruct (field_is_zero (params r) (js "id")). }
      destruct (checkQueue _) as [c' es] eqn:E. simpl.
      eapply consistent_then_checkQueue; [|exact E].
      destruct (_current c) as [cur|] eqn:Hcur; [|exact Hc].
      apply (consistent_same_promises c l n Hc).
      * unfold flying; simpl. now rewrite Hcur.
      * unfold pending; simpl. now rewrite Hcur.
Qed.

Lemma run_ok (events : list event) (w : world) : world_ok w -> world_ok (run w events).
Proof.
  revert w. induction events as [|e events IH]; intros w Hw; [exact Hw|].
  rewrite run_cons. apply IH. now apply step_ok.
Qed.

Lemma promises_run (events : list event) (w : world) :
  promises (run w events) = (promises w + submissions_among events)%nat.
Proof.
  revert w. induction events as [|e events IH]; intros w.
  - simpl. unfold submissions_among. simpl. lia.
  - rewrite run_cons, IH. unfold submissions_among.
    destruct e as [name opts rest | line]; simpl.
    + destruct (send _ _ _ _ _). simpl. lia.
    + destruct (handleLine _ _); simpl; lia.
Qed.

Lemma seen_before (p j : nat) : existsb (Nat.eqb p) (seq 0 j) = (p <? j)%nat.
Proof.
  induction j as [|j IH]; [reflexivity|].
  rewrite seq_S, existsb_app, IH. simpl. rewrite orb_false_r.
  destruct (Nat.ltb_spec p j), (Nat.eqb_spec p j), (Nat.ltb_spec p (S j));
    simpl; try reflexivity; lia.
Qed.

Lemma none_left (j a m : nat) :
  (a + m <= j)%nat ->
  filter (fun p => negb (existsb (Nat.eqb p) (seq 0 j))) (seq a m) = [].
Proof.
  revert a. induction m as [|m IH]; intros a H; [reflexivity|].
  simpl. rewrite seen_before.
  destruct (Nat.ltb_spec a j); [|lia]. simpl. apply IH. lia.
Qed.

(** C2: whatever is submitted and whatever lines arrive, after every prefix
    of what the client has done at most one command has been written and not
    yet settled, and the promises are settled in the order they were
    created, which is the order of the calls of [send]: the promises settled
    are numbers 0, 1, 2, ... of the submissions, in this order (the commands
    are written in this order as well). *)
Theorem one_command_in_flight_fifo (events : list event)
    (pre suf : list effect) :
  log (run start events) = pre ++ suf ->
  (List.length (in_flight pre) <= 1)%nat /\
  settled pre = seq 0 (List.length (settled pre)) /\
  written pre = seq 0 (List.length (written pre)) /\
  (List.length (settled pre) <= submissions_among events)%nat.
Proof.
  intros E.
  destruct (run_ok events start start_ok) as [H1 H2 H3 H4 H5].
  pose proof (promises_run events start) as Hn. simpl in Hn.
  rewrite E, settled_app in H1. rewrite E, written_app, settled_app in H2.
  assert (Hs : settled pre = seq 0 (List.length (settled pre)))
    by exact (seq_prefix _ _ _ _ H1).
  assert (Hw : written pre = seq 0 (List.length (written pre)))
    by exact (seq_prefix _ _ _ _ H2).
  destruct (H5 pre suf E) as [Hlo Hhi].
  repeat split; try assumption.
  - unfold in_flight. rewrite Hs, Hw.
    set (j := List.length (settled pre)) in *.
    set (m := List.length (written pre)) in *.
    destruct (Nat.eq_dec m j) as [->|Hne].
    + rewrite none_left; simpl; lia.
    + replace m with (S j) by lia.
      rewrite seq_S, filter_app, none_left by lia. simpl.
      destruct (negb _); simpl; lia.
  - rewrite E, settled_app, length_app in H4. lia.
Qed.

Lemma one_command_in_flight_fifo_witness :
  (List.length
     (in_flight [Write 0 (js "version" ++ [LF]);
                 Resolve 0 {| own := [(js "id", VStr (js "0"))]; rebound := None |}])
   <= 1)%nat /\
  settled [Write 0 (js "version" ++ [LF]);
           Resolve 0 {| own := [(js "id", VStr (js "0"))]; rebound := None |}] =
    seq 0 (List.length
             (settled [Write 0 (js "version" ++ [LF]);
                       Resolve 0 {| own := [(js "id", VStr (js "0"))];
                                    rebound := None |}])) /\
  written [Write 0 (js "version" ++ [LF]);
           Resolve 0 {| own := [(js "id", VStr (js "0"))]; rebound := None |}] =
    seq 0 (List.length
             (written [Write 0 (js "version" ++ [LF]);
                       Resolve 0 {| own := [(js "id", VStr (js "0"))];
                                    rebound := None |}])) /\
  (List.length
     (settled [Write 0 (js "version" ++ [LF]);
               Resolve 0 {| own := [(js "id", VStr (js "0"))]; rebound := None |}])
   <= submissions_among
        [Submit (js "version") Absent []; Submit (js "whoami") Absent [];
         Line (js "TS3"); Line (js "Welcome"); Line (js "error id=0")])%nat.
Proof.
  apply (one_command_in_flight_fifo
           [Submit (js "version") Absent []; Submit (js "whoami") Absent [];
            Line (js "TS3"); Line (js "Welcome"); Line (js "error id=0")]
           [Write 0 (js "version" ++ [LF]);
            Resolve 0 {| own := [(js "id", VStr (js "0"))]; rebound := None |}]
           [Write 1 (js "whoami" ++ [LF])]).
  vm_compute. reflexivity.
Defined.

(** ** The banner *)

Lemma checkQueue_statusLines (c : client) :
  _statusLines (fst (checkQueue c)) = _statusLines c.
Proof.
  unfold checkQueue. destruct (_current c); [reflexivity|].
  destruct (queue c); reflexivity.
Qed.

Lemma handleLine_banner (c : client) (line : str) :
  (_statusLines c < 2)%nat ->
  handleLine c line =
    let c1 := {| queue := queue c; _current := _current c;
                 _statusLines := S (_statusLines c) |} in
    if (_statusLines c =? 1)%nat
    then Returned (fst (checkQueue c1)) (snd (checkQueue c1))
    else Returned c1 [].
Proof.
  intros H. unfold handleLine.
  rewrite (proj2 (Nat.ltb_lt _ _) H). cbn [_statusLines].
  change (S (_statusLines c) =? 2)%nat with (_statusLines c =? 1)%nat.
  cbv zeta. destruct (_statusLines c =? 1)%nat; [|reflexivity].
  now destruct (checkQueue _).
Qed.

Ltac status_after_checkQueue :=
  match goal with
  | E : checkQueue ?x = (_, _) |- _ =>
      let Hs := fresh "Hs" in
      pose proof (checkQueue_statusLines x) as Hs;
      rewrite E in Hs; cbn [fst state _statusLines with_current] in Hs |- *;
      rewrite ?Hs
  end.

Lemma step_statusLines (w : world) (e : event) :
  (_statusLines (state w) <= 2)%nat ->
  _statusLines (state (step w e)) =
    match e with
    | Line _ => Nat.min 2 (S (_statusLines (state w)))
    | Submit _ _ _ => _statusLines (state w)
    end.
Proof.
  intros Hle. destruct e as [name opts rest | line]; cbn [step].
  - unfold send. cbn [_statusLines].
    destruct (1 <? _statusLines (state w))%nat; [|reflexivity].
    destruct (checkQueue _) as [c' es] eqn:E.
    status_after_checkQueue. reflexivity.
  - destruct (Nat.ltb_spec (_statusLines (state w)) 2) as [Hlt|Hge].
    + rewrite (handleLine_banner _ line Hlt). cbv zeta.
      destruct (Nat.eqb_spec (_statusLines (state w)) 1) as [E1|N1];
        cbn [state _statusLines].
      * rewrite checkQueue_statusLines. cbn [_statusLines]. lia.
      * lia.
    + unfold handleLine. rewrite (ready_test _ Hge).
      assert (E2 : _statusLines (state w) = 2%nat) by lia.
      destruct (parse (trim line)) as [r|]; [|cbn [state]; lia].
      destruct (is_notify (type r)).
      { destruct (checkQueue (state w)) as [c' es] eqn:E.
        status_after_checkQueue. lia. }
      destruct (is_error (type r)).
      { destruct (_current (state w)); [|lia].
        destruct (checkQueue _) as [c' es] eqn:E.
        status_after_checkQueue. lia. }
      destruct (checkQueue _) as [c' es] eqn:E.
      status_after_checkQueue.
      destruct (_current (state w)); cbn [_statusLines with_current] in *; lia.
Qed.

Lemma lines_among_snoc (events : list event) (e : event) :
  lines_among (events ++ [e]) =
    (lines_among events + match e with Line _ => 1 | _ => 0 end)%nat.
Proof.
  unfold lines_among. rewrite filter_app, length_app.
  destruct e; reflexivity.
Qed.

Lemma lines_among_app (a b : list event) :
  lines_among (a ++ b) = (lines_among a + lines_among b)%nat.
Proof. unfold lines_among. now rewrite filter_app, length_app. Qed.

Lemma statusLines_run (events : list event) :
  _statusLines (state (run start events)) = Nat.min 2 (lines_among events).
Proof.
  induction events as [|e events IH] using rev_ind; [reflexivity|].
  rewrite run_snoc, step_statusLines, lines_among_snoc, IH by (rewrite IH; lia).
  destruct e; lia.
Qed.

Lemma quiet_until_ready (events : list event) :
  (lines_among events < 2)%nat -> log (run start events) = [].
Proof.
  induction events as [|e events IH] using rev_ind; [reflexivity|].
  rewrite lines_among_snoc, run_snoc. intros Hlt.
  pose proof (statusLines_run events) as Hst.
  destruct e as [name opts rest | line]; simpl.
  - unfold send. cbn [_statusLines]. rewrite Hst.
    destruct (Nat.ltb_spec 1 (Nat.min 2 (lines_among events))); [lia|].
    simpl. rewrite IH by lia. reflexivity.
  - rewrite handleLine_banner by (rewrite Hst; lia). cbv zeta.
    rewrite Hst.
    destruct (Nat.eqb_spec (Nat.min 2 (lines_among events)) 1); [lia|].
    simpl. rewrite IH by lia. reflexivity.
Qed.

(** C4: the session phase is the number of lines received, capped at two:
    it only grows, and it is Ready (two) from the second line on.  Until
    the second line has been handled the client does nothing at all: no
    command is written, whatever was submitted.  And the handling of the
    first two lines does not depend on their text: they are not parsed. *)
Theorem banner_lines_gate_dispatch (events : list event) :
  _statusLines (state (run start events)) = Nat.min 2 (lines_among events) /\
  (forall more,
     (_statusLines (state (run start events))
      <= _statusLines (state (run start (events ++ more))))%nat) /\
  ((lines_among events < 2)%nat -> log (run start events) = []) /\
  (forall line line',
     (lines_among events < 2)%nat ->
     handleLine (state (run start events)) line =
     handleLine (state (run start events)) line').
Proof.
  split; [apply statusLines_run|].
  split; [|split].
  - intros more. rewrite !statusLines_run, lines_among_app. lia.
  - apply quiet_until_ready.
  - intros line line' Hlt.
    rewrite !handleLine_banner by (rewrite statusLines_run; lia).
    reflexivity.
Qed.

(** Two commands submitted during the banner: nothing is written until the
    second banner line, whose handling writes the first command. *)
Lemma banner_lines_gate_dispatch_witness :
  log (run start [Submit (js "version") Absent []; Line (js "TS3");
                  Submit (js "whoami") Absent []]) = [] /\
  log (run start [Submit (js "version") Absent []; Line (js "TS3");
                  Submit (js "whoami") Absent []; Line (js "error id=0")]) =
    [Write 0 (js "version" ++ [LF])].
Proof.
  split.
  - apply (banner_lines_gate_dispatch
             [Submit (js "version") Absent []; Line (js "TS3");
              Submit (js "whoami") Absent []]).
    vm_compute. lia.
  - vm_compute. reflexivity.
Defined.

(** A data line, a second one, then the terminator: the second one wins. *)
Lemma last_data_line_is_the_result_witness :
  handleLine
    {| queue := [];
       _current := Some {| cmd := js "clientlist"; promise := 0; data := None |};
       _statusLines := 2 |}
    (js "clid=2 cid=7") =
    Returned
      {| queue := [];
         _current :=
           Some {| cmd := js "clientlist"; promise := 0;
                   data := Some {| own := [(js "clid", VStr (js "2"));
                                           (js "cid", VStr (js "7"))];
                                   rebound := None |} |};
         _statusLines := 2 |} [] /\
  log (run
         {| state :=
              {| queue := [];
                 _current := Some {| cmd := js "clientlist"; promise := 0;
                                     data := None |};
                 _statusLines := 2 |};
            log := [Write 0 (js "clientlist" ++ [LF])];
            promises := 1 |}
         (map Line ([js "clid=1 cid=4"]
                    ++ [js "clid=2 cid=7"; js "error id=0 msg=ok"]))) =
    [Write 0 (js "clientlist" ++ [LF])]
    ++ Resolve 0 {| own := [(js "clid", VStr (js "2")); (js "cid", VStr (js "7"))];
                    rebound := None |}
       :: snd (checkQueue {| queue := []; _current := None; _statusLines := 2 |}).
Proof.
  apply (last_data_line_is_the_result
           {| state :=
                {| queue := [];
                   _current := Some {| cmd := js "clientlist"; promise := 0;
                                       data := None |};
                   _statusLines := 2 |};
              log := [Write 0 (js "clientlist" ++ [LF])];
              promises := 1 |}
           {| cmd := js "clientlist"; promise := 0; data := None |}
           [js "clid=1 cid=4"] (js "clid=2 cid=7") (js "error id=0 msg=ok")
           {| own := [(js "clid", VStr (js "2")); (js "cid", VStr (js "7"))];
              rebound := None |}
           {| type := Some (js "error");
              params := {| own := [(js "id", VStr (js "0"));
                                   (js "msg", VStr (js "ok"))];
                           rebound := None |} |}).
  - simpl. lia.
  - reflexivity.
  - repeat constructor.
    exists {| own := [(js "clid", VStr (js "1")); (js "cid", VStr (js "4"))];
              rebound := None |}.
    eexists. split; [vm_compute; reflexivity|]. split; reflexivity.
  - eexists. split; [vm_compute; reflexivity|]. split; reflexivity.
  - vm_compute. reflexivity.
  - vm_compute. reflexivity.
  - vm_compute. reflexivity.
Defined.

(** * Further properties of the code *)

(** ** Codec *)

Lemma escape_char_full (c : char) : escape_char c = written_with full_table c.
Proof.
  rewrite escape_char_table. unfold written_with, full_table. cbn [lookup].
  now destruct (c =? backslash).
Qed.

(** X1: the nine replacements of [escape] never rewrite each other's
    output: the escaped text is the input with each character replaced, once,
    by its entry in the escape table, so escaping distributes over
    concatenation and the backslash is never escaped twice. *)
Theorem escape_substitutes_each_character_once (a b : str) :
  escape a = flat_map escape_char a /\
  escape (a ++ b) = escape a ++ escape b.
Proof. split; [apply escape_flat_map | apply escape_app]. Qed.

Lemma has_app (k : char) (a b : str) : has k (a ++ b) = has k a || has k b.
Proof. apply existsb_app. Qed.

Lemma has_flat_map (k : char) (f : char -> str) (s : str) :
  (forall c, has k (f c) = false) -> has k (flat_map f s) = false.
Proof.
  intros Hf. induction s as [|c s IH]; [reflexivity|].
  simpl. now rewrite has_app, Hf, IH.
Qed.

Lemma full_table_rows (c x : char) :
  lookup c full_table = Some x ->
  In c [92; 47; 124; 10; 13; 9; 11; 12; 32] /\
  In x [92; 47; 112; 110; 114; 116; 118; 102; 115].
Proof.
  intros E. apply lookup_in in E. unfold full_table, table in E.
  repeat (destruct E as [E|E]; [injection E as <- <-; simpl; tauto|]).
  contradiction.
Qed.

Lemma escape_char_avoids (k : char) :
  is_reserved k = true -> k <> backslash -> k <> slash ->
  forall c, has k (escape_char c) = false.
Proof.
  intros Hk Hb Hs c. rewrite escape_char_full. unfold written_with.
  unfold is_reserved in Hk.
  destruct (lookup k full_table) as [y|] eqn:Ek; [|discriminate].
  destruct (lookup c full_table) as [x|] eqn:E.
  - apply full_table_rows in Ek as [Hin _]. apply full_table_rows in E as [_ Hx].
    unfold backslash, slash in *. simpl in Hin, Hx.
    repeat (destruct Hin as [<-|Hin]; [|]); try contradiction; try congruence;
      repeat (destruct Hx as [<-|Hx]; [reflexivity|]); contradiction.
  - unfold has. simpl. rewrite orb_false_r. apply N.eqb_neq. intros <-.
    congruence.
Qed.

(** X2: an escaped text holds none of the characters that separate the
    tokens of a command line or end it: no space, no pipe, no line feed, no
    carriage return, no tab, no vertical tab and no form feed. *)
Theorem escaped_text_has_no_separator (s : str) :
  has space (escape s) = false /\ has pipe (escape s) = false /\
  has LF (escape s) = false /\ has CR (escape s) = false /\
  has TAB (escape s) = false /\ has VT (escape s) = false /\
  has FF (escape s) = false.
Proof.
  rewrite escape_flat_map.
  repeat split; apply has_flat_map, escape_char_avoids;
    solve [reflexivity | discriminate].
Qed.

Lemma full_table_letters (c c' x x' : char) :
  lookup c full_table = Some x -> lookup c' full_table = Some x' ->
  x = x' -> c = c'.
Proof.
  assert (H : forall k y, lookup k full_table = Some y -> stands_for y = k).
  { intros k y E. apply lookup_in in E. unfold full_table, table in E.
    repeat (destruct E as [E|E]; [injection E as <- <-; reflexivity|]).
    contradiction. }
  intros E E' <-. now rewrite <- (H _ _ E), <- (H _ _ E').
Qed.

Lemma unreserved_is_no_backslash (c : char) :
  lookup c full_table = None -> c <> backslash.
Proof. intros E ->. discriminate E. Qed.

Lemma escape_chars_injective (a b : str) :
  flat_map escape_char a = flat_map escape_char b -> a = b.
Proof.
  revert b. induction a as [|c a IH]; intros [|c' b]; cbn [flat_map].
  - reflexivity.
  - rewrite escape_char_full. unfold written_with.
    destruct (lookup c' full_table); discriminate.
  - rewrite escape_char_full. unfold written_with.
    destruct (lookup c full_table); discriminate.
  - rewrite !escape_char_full. unfold written_with.
    destruct (lookup c full_table) as [x|] eqn:E;
      destruct (lookup c' full_table) as [x'|] eqn:E'; cbn [app]; intros H.
    + injection H as Hx H. f_equal; [|now apply IH].
      now apply (full_table_letters c c' x x').
    + injection H as Hc _. symmetry in Hc.
      now apply unreserved_is_no_backslash in E'.
    + injection H as Hc _. now apply unreserved_is_no_backslash in E.
    + injection H as -> H. f_equal. now apply IH.
Qed.

(** X3: [escape] loses nothing: two different strings never have the same
    escaped text. *)
Theorem escape_is_injective (a b : str) : escape a = escape b -> a = b.
Proof. rewrite !escape_flat_map. apply escape_chars_injective. Qed.

Lemma escape_is_injective_witness : js "a b" = js "a b".
Proof. apply escape_is_injective. vm_compute. reflexivity. Defined.

Lemma replace2_absent (a b : char) (rep s : str) :
  has a s = false -> replace2 a b rep s = s.
Proof.
  induction s as [|x s IH]; [reflexivity|].
  unfold has in *. cbn [existsb]. rewrite orb_false_iff, N.eqb_neq.
  intros [Hx Hs]. rewrite replace2_skip by (left; congruence).
  now rewrite IH.
Qed.

Lemma escape_unreserved (s : str) :
  forallb (fun c => negb (is_reserved c)) s = true -> escape s = s.
Proof.
  rewrite escape_flat_map. induction s as [|c s IH]; [reflexivity|].
  cbn [forallb flat_map]. rewrite andb_true_iff, negb_true_iff.
  intros [Hc Hs]. rewrite (IH Hs), escape_char_full.
  unfold written_with, is_reserved in *.
  now destruct (lookup c full_table).
Qed.

Lemma unescape_without_backslash (s : str) :
  has backslash s = false -> unescape s = s.
Proof.
  intros H. unfold unescape.
  now repeat rewrite (replace2_absent _ _ _ s H).
Qed.

(** X4: plain text passes through the codec untouched: [escape] returns a
    string that holds none of the nine reserved characters as it is, and
    [unescape] returns a string without a backslash as it is. *)
Theorem codec_leaves_plain_text (s : str) :
  (forallb (fun c => negb (is_reserved c)) s = true -> escape s = s) /\
  (has backslash s = false -> unescape s = s).
Proof. split; [apply escape_unreserved | apply unescape_without_backslash]. Qed.

Lemma codec_leaves_plain_text_witness :
  escape (js "serveradmin") = js "serveradmin" /\
  unescape (js "a|b c") = js "a|b c".
Proof.
  split.
  - apply (codec_leaves_plain_text (js "serveradmin")). vm_compute. reflexivity.
  - apply (codec_leaves_plain_text (js "a|b c")). vm_compute. reflexivity.
Defined.

(** X5: the round trip [unescape(escape(s)) == s] holds for every string
    in which no backslash is immediately followed by one of the letters p, n,
    r, t, v, f, s; in particular for every string without a backslash. *)
Theorem round_trip_away_from_escape_letters (s : str) :
  no_backslash_before is_escape_letter s = true ->
  unescape (escape s) = s.
Proof. apply unescape_escape_away_from_letters. Qed.

Lemma round_trip_away_from_escape_letters_witness :
  unescape (escape (js "C:\Program Files/a|b\\")) = js "C:\Program Files/a|b\\".
Proof.
  apply round_trip_away_from_escape_letters. vm_compute. reflexivity.
Defined.

(** ** Command text *)

Lemma has_join (k : char) (sep : str) (parts : list str) :
  has k sep = false ->
  (forall p, In p parts -> has k p = false) ->
  has k (join sep parts) = false.
Proof.
  intros Hsep Hparts. destruct parts as [|p parts]; [reflexivity|].
  rewrite join_cons, has_app, (Hparts p) by now left. simpl.
  assert (Hrest : forall q, In q parts -> has k q = false)
    by (intros q Hq; apply Hparts; now right).
  clear Hparts. induction parts as [|q parts IH]; [reflexivity|].
  cbn [flat_map]. rewrite !has_app, Hsep, (Hrest q) by now left. simpl.
  apply IH. intros q' Hq'. apply Hrest. now right.
Qed.

Lemma escape_avoids (k : char) (s : str) :
  is_reserved k = true -> k <> backslash -> k <> slash ->
  has k (escape s) = false.
Proof.
  intros H1 H2 H3. rewrite escape_flat_map.
  now apply has_flat_map, escape_char_avoids.
Qed.

Lemma serialize_parts (name : str) (opts : options) (rest : list scalar) :
  exists tokens,
    serialize name opts rest = join [space] (name :: tokens) /\
    forall t, In t tokens ->
      (exists v, t = escape (String_ v)) \/
      (exists key v, t = Wording.pair_text key v) \/
      (exists key vs, t = join [pipe] (map (Wording.pair_text key) vs)).
Proof.
  unfold serialize. destruct opts as [|entries|v].
  - exists (map (fun f => escape (String_ f)) rest). split; [reflexivity|].
    intros t Hin. apply in_map_iff in Hin as (f & <- & _). left. now exists f.
  - exists (map Wording.token (for_in entries)
            ++ map (fun f => escape (String_ f)) rest).
    split; [now rewrite fold_push_param|].
    intros t Hin. apply in_app_or in Hin as [Hin|Hin].
    + apply in_map_iff in Hin as ([key val] & <- & _). right.
      destruct val as [v|vs]; [left; now exists key, v | right; now exists key, vs].
    + apply in_map_iff in Hin as (f & <- & _). left. now exists f.
  - destruct (truthy v).
    + exists (map (fun f => escape (String_ f)) (v :: rest)). split; [reflexivity|].
      intros t Hin. apply in_map_iff in Hin as (f & <- & _). left. now exists f.
    + exists (map (fun f => escape (String_ f)) rest). split; [reflexivity|].
      intros t Hin. apply in_map_iff in Hin as (f & <- & _). left. now exists f.
Qed.

Lemma serialize_keeps_out (k : char) (name : str) (opts : options)
    (rest : list scalar) :
  is_reserved k = true -> k <> backslash -> k <> slash -> k <> space ->
  k <> pipe ->
  has k name = false -> has k (serialize name opts rest) = false.
Proof.
  intros Hres Hb Hs Hsp Hp Hname.
  assert (Hpair : forall key v, has k (Wording.pair_text key v) = false).
  { intros key v. unfold Wording.pair_text.
    rewrite !has_app, !escape_avoids by assumption. simpl.
    rewrite !orb_false_r. apply N.eqb_neq. intros ->. discriminate Hres. }
  destruct (serialize_parts name opts rest) as (tokens & -> & Htok).
  apply has_join.
  - unfold has. simpl. rewrite orb_false_r. now apply N.eqb_neq.
  - intros p [<-|Hin]; [exact Hname|].
    destruct (Htok p Hin) as [[v ->]|[(key & v & ->)|(key & vs & ->)]].
    + now apply escape_avoids.
    + apply Hpair.
    + apply has_join.
      * unfold has. simpl. rewrite orb_false_r. now apply N.eqb_neq.
      * intros q Hq. apply in_map_iff in Hq as (v & <- & _). apply Hpair.
Qed.

(** X6: whatever the keys, values and flags hold, the command text has a
    line feed or a carriage return only where the command name has one: a
    parameter can never end the line and start another command. *)
Theorem parameters_cannot_break_the_line (name : str) (opts : options)
    (rest : list scalar) :
  (has LF name = false -> has LF (serialize name opts rest) = false) /\
  (has CR name = false -> has CR (serialize name opts rest) = false).
Proof.
  split; apply serialize_keeps_out; solve [reflexivity | discriminate].
Qed.

Lemma parameters_cannot_break_the_line_witness :
  has LF (serialize (js "sendtextmessage")
            (Params [(js "msg", Scalar (SStr (js "hi" ++ [LF] ++ js "quit")))])
            [SStr [CR; LF]]) = false /\
  has CR (serialize (js "sendtextmessage")
            (Params [(js "msg", Scalar (SStr (js "hi" ++ [LF] ++ js "quit")))])
            [SStr [CR; LF]]) = false.
Proof.
  split;
    apply (parameters_cannot_break_the_line (js "sendtextmessage")
             (Params [(js "msg", Scalar (SStr (js "hi" ++ [LF] ++ js "quit")))])
             [SStr [CR; LF]]);
    vm_compute; reflexivity.
Defined.

(** X7: a scalar given to [send] in the place of the options is the first
    flag; but a falsy one (the empty string, the number 0) is dropped
    without a trace.  Without parameters the text is the name followed by the
    escaped flags, each after one space. *)
Theorem scalar_options_are_a_flag_unless_falsy (name : str) (v : scalar)
    (rest : list scalar) :
  serialize name Absent rest =
    Wording.command_text name (map (fun f => escape (String_ f)) rest) /\
  serialize name (Flag v) rest =
    (if truthy v then serialize name Absent (v :: rest)
     else serialize name Absent rest) /\
  serialize name (Flag (SStr [])) rest = serialize name Absent rest /\
  serialize name (Flag (SNum 0 eq_refl)) rest = serialize name Absent rest.
Proof.
  split; [|split; [|split; reflexivity]].
  - unfold serialize, Wording.command_text. simpl app. now rewrite join_cons.
  - unfold serialize. now destruct (truthy v).
Qed.

(** ** Dispatch *)

(** X8: [checkQueue] is idempotent: called again right away it writes
    nothing and changes nothing. *)
Theorem checkQueue_twice (c : client) :
  checkQueue (fst (checkQueue c)) = (fst (checkQueue c), []).
Proof.
  destruct (_current c) as [cur|] eqn:Hcur.
  - rewrite (checkQueue_busy c cur Hcur). simpl. now apply (checkQueue_busy c cur).
  - destruct (queue c) as [|head rest] eqn:Hq.
    + rewrite (checkQueue_nothing_queued c Hq). simpl.
      now apply checkQueue_nothing_queued.
    + rewrite (checkQueue_dispatch c head rest Hcur Hq). reflexivity.
Qed.

(** X9: what [send] does with the command besides queueing it.  In the
    Ready phase, with no command current and an empty queue, the command is
    written at once and becomes the current one.  While another command is
    current, or before the second banner line, nothing is written: the
    command waits at the end of the queue. *)
Theorem send_writes_at_once_only_when_idle (p : nat) (c : client) (name : str)
    (opts : options) (rest : list scalar) :
  let entry := {| cmd := serialize name opts rest; promise := p; data := None |} in
  ((2 <= _statusLines c)%nat -> _current c = None -> queue c = [] ->
   send p c name opts rest =
     ({| queue := []; _current := Some entry; _statusLines := _statusLines c |},
      [Write p (serialize name opts rest ++ [LF])])) /\
  (forall cur, _current c = Some cur ->
   send p c name opts rest =
     ({| queue := queue c ++ [entry]; _current := Some cur;
         _statusLines := _statusLines c |}, [])) /\
  ((_statusLines c < 2)%nat ->
   send p c name opts rest =
     ({| queue := queue c ++ [entry]; _current := _current c;
         _statusLines := _statusLines c |}, [])).
Proof.
  cbv zeta. unfold send. cbn [_statusLines]. split; [|split].
  - intros Hready Hcur Hq.
    destruct (Nat.ltb_spec 1 (_statusLines c)); [|lia].
    unfold checkQueue. cbn [_current queue _statusLines].
    now rewrite Hcur, Hq.
  - intros cur Hcur. rewrite Hcur.
    destruct (1 <? _statusLines c)%nat; reflexivity.
  - intros Hlt. destruct (Nat.ltb_spec 1 (_statusLines c)); [lia|reflexivity].
Qed.

Lemma send_writes_at_once_only_when_idle_witness :
  send 0 {| queue := []; _current := None; _statusLines := 2 |}
       (js "version") Absent [] =
    ({| queue := [];
        _current := Some {| cmd := js "version"; promise := 0; data := None |};
        _statusLines := 2 |},
     [Write 0 (js "version" ++ [LF])]) /\
  send 1 {| queue := [];
            _current := Some {| cmd := js "version"; promise := 0; data := None |};
            _statusLines := 2 |}
       (js "whoami") Absent [] =
    ({| queue := [{| cmd := js "whoami"; promise := 1; data := None |}];
        _current := Some {| cmd := js "version"; promise := 0; data := None |};
        _statusLines := 2 |}, []) /\
  send 0 initial (js "version") Absent [] =
    ({| queue := [{| cmd := js "version"; promise := 0; data := None |}];
        _current := None; _statusLines := 0 |}, []).
Proof.
  split; [|split].
  - apply (proj1 (send_writes_at_once_only_when_idle 0
             {| queue := []; _current := None; _statusLines := 2 |}
             (js "version") Absent []));
      [simpl; lia | reflexivity | reflexivity].
  - apply (proj1 (proj2 (send_writes_at_once_only_when_idle 1
             {| queue := [];
                _current := Some {| cmd := js "version"; promise := 0;
                                    data := None |};
                _statusLines := 2 |}
             (js "whoami") Absent []))). reflexivity.
  - apply (proj2 (proj2 (send_writes_at_once_only_when_idle 0 initial
             (js "version") Absent []))).
    simpl. lia.
Defined.

(** ** Tokens and tags *)

Lemma span_holds (p : char -> bool) (s taken rest : str) :
  span p s = (taken, rest) -> forallb p taken = true.
Proof.
  revert taken rest. induction s as [|c s IH]; intros taken rest; simpl.
  - intros E. injection E as <- <-. reflexivity.
  - destruct (p c) eqn:Hc.
    + destruct (span p s) as [taken' rest'] eqn:Es. intros E.
      injection E as <- <-. simpl. rewrite Hc. now apply (IH taken' rest').
    + intros E. injection E as <- <-. reflexivity.
Qed.

Lemma span_stops (p : char -> bool) (taken rest : str) :
  forallb p taken = true ->
  match rest with c :: _ => p c = false | [] => True end ->
  span p (taken ++ rest) = (taken, rest).
Proof.
  intros Ht Hr. induction taken as [|c taken IH]; simpl.
  - destruct rest as [|c rest]; [reflexivity|]. simpl. now rewrite Hr.
  - simpl in Ht. apply andb_true_iff in Ht as [-> Ht]. now rewrite (IH Ht).
Qed.

Lemma nonempty_true (s : str) : nonempty s = true <-> s <> [].
Proof. destruct s; simpl; split; congruence. Qed.

Lemma key_value_at_shape (s t rest : str) :
  key_value_at s = Some (t, rest) -> token_shape t.
Proof.
  unfold key_value_at.
  destruct (span is_word s) as [key after] eqn:Es.
  destruct after as [|a after]; [discriminate|].
  destruct (nonempty key && (a =? equals)) eqn:Hk; [|discriminate].
  destruct (span is_value_char after) as [val r] eqn:Ev.
  destruct (nonempty val) eqn:Hv; [|discriminate].
  intros E. injection E as <- <-.
  apply andb_true_iff in Hk as [Hk _].
  exists key, val. repeat split.
  - now apply nonempty_true.
  - now apply (span_holds _ _ _ _ Es).
  - now apply nonempty_true.
  - now apply (span_holds _ _ _ _ Ev).
Qed.

Lemma token_shape_has_equals (t : str) : token_shape t -> has equals t = true.
Proof.
  intros (key & val & -> & _). rewrite has_app. simpl. now rewrite orb_true_r.
Qed.

(** Away from the start of the line every token is a [key=value] pair. *)
Lemma later_tokens_are_pairs (fuel : nat) (s : str) :
  Forall token_shape (match_from fuel false s).
Proof.
  revert s. induction fuel as [|fuel IH]; intros s; [constructor|].
  simpl. destruct s as [|c tail]; [constructor|].
  change (match_at false (c :: tail)) with (key_value_at (c :: tail)).
  destruct (key_value_at (c :: tail)) as [[t rest]|] eqn:E; [|apply IH].
  constructor; [now apply (key_value_at_shape _ _ _ E) | apply IH].
Qed.

Lemma key_value_needs_equals (s : str) :
  has equals s = false -> key_value_at s = None.
Proof.
  intros H. destruct (key_value_at s) as [[t rest]|] eqn:E; [|reflexivity].
  pose proof (key_value_at_shape _ _ _ E) as (key & val & -> & _).
  unfold key_value_at in E.
  destruct (span is_word s) as [k after] eqn:Es.
  apply span_app in Es. subst s.
  destruct after as [|a after]; [discriminate|].
  destruct (N.eqb_spec a equals) as [->|Ha].
  - rewrite has_app in H. simpl in H. now rewrite orb_true_r in H.
  - now rewrite andb_false_r in E.
Qed.

Lemma no_pairs_without_equals (fuel : nat) (s : str) :
  has equals s = false -> match_from fuel false s = [].
Proof.
  revert s. induction fuel as [|fuel IH]; intros s H; [reflexivity|].
  simpl. destruct s as [|c tail]; [reflexivity|].
  change (match_at false (c :: tail)) with (key_value_at (c :: tail)).
  rewrite (key_value_needs_equals _ H). apply IH.
  unfold has in *. simpl in H. now apply orb_false_iff in H.
Qed.

Lemma has_trimStart (k : char) (s : str) :
  has k s = false -> has k (trimStart s) = false.
Proof.
  induction s as [|c s IH]; [reflexivity|]. simpl.
  destruct (is_space c); [|now intros H].
  unfold has in *. simpl. intros H. apply IH. now apply orb_false_iff in H.
Qed.

Lemma has_rev (k : char) (s : str) : has k (rev s) = has k s.
Proof.
  induction s as [|c s IH]; [reflexivity|].
  simpl. rewrite has_app, IH. unfold has. simpl.
  rewrite orb_false_r. apply orb_comm.
Qed.

Lemma has_trim (k : char) (s : str) : has k s = false -> has k (trim s) = false.
Proof.
  intros H. unfold trim, trimEnd. rewrite has_rev. apply has_trimStart.
  rewrite has_rev. now apply has_trimStart.
Qed.

(** X10: a line without any [=] that does not begin, whatever the letter
    case, with [error] or [notify] holds no token: [parse] returns [null]
    for it (so for the empty line and for a line of white space), and
    [handleLine] ignores it in the Ready phase: nothing is done and nothing
    changes. *)
Theorem line_without_pairs_is_ignored (c : client) (line : str) :
  has equals line = false ->
  literal_ci (js "error") (trim line) = None ->
  literal_ci (js "notify") (trim line) = None ->
  parse (trim line) = None /\
  ((2 <= _statusLines c)%nat -> handleLine c line = Returned c []).
Proof.
  intros Heq Herr Hnot.
  assert (Hparse : parse (trim line) = None).
  { unfold parse, match_all. apply has_trim in Heq.
    destruct (trim line) as [|ch tail] eqn:Et; [reflexivity|].
    cbn [match_from]. unfold match_at, keyword_error_at, keyword_notify_at.
    rewrite Herr, Hnot, (key_value_needs_equals _ Heq).
    rewrite no_pairs_without_equals; [reflexivity|].
    unfold has in *. simpl in Heq. now apply orb_false_iff in Heq. }
  split; [exact Hparse|].
  intros Hready. unfold handleLine. now rewrite (ready_test c Hready), Hparse.
Qed.

Lemma line_without_pairs_is_ignored_witness :
  parse (trim (js "  Welcome to the ServerQuery interface ")) = None /\
  ((2 <= _statusLines {| queue := []; _current := None; _statusLines := 2 |})%nat ->
   handleLine {| queue := []; _current := None; _statusLines := 2 |}
              (js "  Welcome to the ServerQuery interface ") =
   Returned {| queue := []; _current := None; _statusLines := 2 |} []).
Proof.
  apply (line_without_pairs_is_ignored
           {| queue := []; _current := None; _statusLines := 2 |}
           (js "  Welcome to the ServerQuery interface "));
    vm_compute; reflexivity.
Defined.

Lemma literal_ci_prefix (pat s rest : str) :
  forallb (fun p => negb (fold_case p =? equals)) pat = true ->
  literal_ci pat s = Some rest ->
  has equals (firstn (List.length pat) s) = false.
Proof.
  revert s. induction pat as [|p pat IH]; intros s Hpat; [reflexivity|].
  simpl in Hpat. apply andb_true_iff in Hpat as [Hp Hpat].
  destruct s as [|c s]; [discriminate|]. cbn [literal_ci List.length firstn].
  destruct (N.eqb_spec (fold_case c) (fold_case p)) as [E|]; [|discriminate].
  intros H. unfold has in *. cbn [existsb]. rewrite (IH s Hpat H), orb_false_r.
  apply N.eqb_neq. intros <-. apply negb_true_iff, N.eqb_neq in Hp.
  apply Hp. now rewrite <- E.
Qed.

Lemma words_have_no_equals (w : str) :
  forallb is_word w = true -> has equals w = false.
Proof.
  induction w as [|c w IH]; [reflexivity|]. cbn [forallb].
  rewrite andb_true_iff. intros [Hc Hw]. unfold has in *. cbn [existsb].
  rewrite (IH Hw), orb_false_r. apply N.eqb_neq. intros <-. discriminate Hc.
Qed.

Lemma parse_of_tokens (s first : str) (others : list str) :
  match_all s = first :: others ->
  parse s =
    Some (if negb (has equals first)
          then {| type := Some first;
                  params := fold_left add_field others empty_object |}
          else {| type := None;
                  params := fold_left add_field (first :: others) empty_object |}).
Proof.
  intros E. unfold parse. rewrite E. fold (has equals first).
  now destruct (negb (has equals first)).
Qed.

(** X11: a parsed line has a tag only when it begins with [error] or with
    [notify] and at least one more word character, whatever the letter case
    and whatever follows: the tag is the text matched there, in the letter
    case of the line.  A line that begins with [error] is tagged even when
    the keyword runs into the next word.  Every other line that parses is
    untagged. *)
Theorem tag_comes_from_the_line_start (s : str) (r : response) :
  parse s = Some r ->
  (forall rest, literal_ci (js "error") s = Some rest ->
     type r = Some (firstn 5 s)) /\
  (literal_ci (js "error") s = None ->
   forall after, literal_ci (js "notify") s = Some after ->
     fst (span is_word after) <> [] ->
     type r = Some (firstn 6 s ++ fst (span is_word after))) /\
  (literal_ci (js "error") s = None ->
   keyword_notify_at s = None -> type r = None).
Proof.
  intros Hparse.
  destruct s as [|c tail] eqn:Es; [discriminate|]. rewrite <- Es in *.
  assert (Hall : match_all s =
                 match match_at true s with
                 | Some (token, rest) =>
                     token :: match_from (List.length s) false rest
                 | None => match_from (List.length s) false tail
                 end).
  { unfold match_all. rewrite Es. reflexivity. }
  split; [|split].
  - intros rest Herr.
    unfold match_at, keyword_error_at in Hall. rewrite Herr in Hall.
    rewrite (parse_of_tokens _ _ _ Hall) in Hparse.
    pose proof (literal_ci_prefix (js "error") s rest eq_refl Herr) as Hf.
    change (List.length (js "error")) with 5%nat in Hf.
    rewrite Hf in Hparse. injection Hparse as <-. reflexivity.
  - intros Herr after Hnot Hword.
    unfold match_at, keyword_error_at, keyword_notify_at in Hall.
    rewrite Herr, Hnot in Hall.
    destruct (span is_word after) as [word rest] eqn:Ew. simpl in Hword.
    rewrite (proj2 (nonempty_true word) Hword) in Hall.
    rewrite (parse_of_tokens _ _ _ Hall) in Hparse.
    pose proof (literal_ci_prefix (js "notify") s after eq_refl Hnot) as Hf.
    change (List.length (js "notify")) with 6%nat in Hf.
    rewrite has_app, Hf,
      (words_have_no_equals word (span_holds _ _ _ _ Ew)) in Hparse.
    injection Hparse as <-. reflexivity.
  - intros Herr Hnot.
    unfold match_at, keyword_error_at in Hall. rewrite Herr, Hnot in Hall.
    assert (Hfirst : forall first others,
              match_all s = first :: others -> token_shape first).
    { intros first others E. rewrite Hall in E.
      destruct (key_value_at s) as [[t rest]|] eqn:Ek.
      - injection E as <- _. now apply (key_value_at_shape _ _ _ Ek).
      - pose proof (later_tokens_are_pairs (List.length s) tail) as Hlater.
        rewrite E in Hlater. now inversion Hlater. }
    destruct (match_all s) as [|first others] eqn:Em.
    { unfold parse in Hparse. now rewrite Em in Hparse. }
    rewrite (parse_of_tokens _ _ _ Em) in Hparse.
    rewrite (token_shape_has_equals _ (Hfirst _ _ eq_refl)) in Hparse.
    injection Hparse as <-. reflexivity.
Qed.

Lemma tag_comes_from_the_line_start_witness :
  (forall rest, literal_ci (js "error") (js "ERRORcode=5 id=0") = Some rest ->
     type {| type := Some (js "ERROR");
             params := {| own := [(js "code", VStr (js "5"));
                                  (js "id", VStr (js "0"))];
                          rebound := None |} |}
     = Some (firstn 5 (js "ERRORcode=5 id=0"))) /\
  (literal_ci (js "error") (js "ERRORcode=5 id=0") = None ->
   forall after, literal_ci (js "notify") (js "ERRORcode=5 id=0") = Some after ->
     fst (span is_word after) <> [] ->
     type {| type := Some (js "ERROR");
             params := {| own := [(js "code", VStr (js "5"));
                                  (js "id", VStr (js "0"))];
                          rebound := None |} |}
     = Some (firstn 6 (js "ERRORcode=5 id=0") ++ fst (span is_word after))) /\
  (literal_ci (js "error") (js "ERRORcode=5 id=0") = None ->
   keyword_notify_at (js "ERRORcode=5 id=0") = None ->
   type {| type := Some (js "ERROR");
           params := {| own := [(js "code", VStr (js "5"));
                                (js "id", VStr (js "0"))];
                        rebound := None |} |} = None).
Proof.
  apply (tag_comes_from_the_line_start (js "ERRORcode=5 id=0")).
  vm_compute. reflexivity.
Defined.

(** ** Lines that are neither notifications nor terminators *)

Lemma handleLine_other (c : client) (line : str) (r : response) :
  (2 <= _statusLines c)%nat ->
  parse (trim line) = Some r ->
  is_notify (type r) = false ->
  is_error (type r) = false ->
  handleLine c line =
    let c1 := match _current c with
              | Some cur => with_current c (Some (with_data cur (params r)))
              | None => c
              end in
    Returned (fst (checkQueue c1)) (snd (checkQueue c1)).
Proof.
  intros Hready Hparse Hn He. unfold handleLine.
  rewrite (ready_test c Hready), Hparse, Hn, He. cbv zeta.
  now destruct (checkQueue _).
Qed.

(** X12: the pattern finds the keywords in any letter case, but the tag is
    compared as it is: a line tagged [ERROR] or [Notify...] is neither a
    terminator nor a notification.  While a command is current such a line
    is taken for a data line: its fields replace the data accumulated, the
    command is not settled and no event is emitted. *)
Theorem tags_in_other_letter_case_are_data (c : client) (line : str)
    (r : response) (cur : command) :
  (2 <= _statusLines c)%nat ->
  parse (trim line) = Some r ->
  is_notify (type r) = false ->
  is_error (type r) = false ->
  _current c = Some cur ->
  handleLine c line =
    Returned (with_current c (Some (with_data cur (params r)))) [].
Proof.
  intros Hready Hparse Hn He Hcur.
  rewrite (handleLine_other c line r Hready Hparse Hn He), Hcur.
  reflexivity.
Qed.

Lemma tags_in_other_letter_case_are_data_witness :
  handleLine
    {| queue := [];
       _current := Some {| cmd := js "version"; promise := 0; data := None |};
       _statusLines := 2 |}
    (js "ERROR id=0 msg=ok") =
  Returned
    (with_current
       {| queue := [];
          _current := Some {| cmd := js "version"; promise := 0; data := None |};
          _statusLines := 2 |}
       (Some (with_data {| cmd := js "version"; promise := 0; data := None |}
                {| own := [(js "id", VStr (js "0")); (js "msg", VStr (js "ok"))];
                   rebound := None |}))) [].
Proof.
  apply (tags_in_other_letter_case_are_data _ _
           {| type := Some (js "ERROR");
              params := {| own := [(js "id", VStr (js "0"));
                                   (js "msg", VStr (js "ok"))];
                           rebound := None |} |}).
  - simpl. lia.
  - vm_compute. reflexivity.
  - reflexivity.
  - reflexivity.
  - reflexivity.
Defined.

(** X13: a data line that arrives while no command is current is dropped:
    on an idle client nothing is kept of it, nothing is emitted and nothing
    is written. *)
Theorem data_line_without_command_is_dropped (c : client) (line : str)
    (r : response) :
  (2 <= _statusLines c)%nat ->
  parse (trim line) = Some r ->
  is_notify (type r) = false ->
  is_error (type r) = false ->
  _current c = None -> queue c = [] ->
  handleLine c line = Returned c [].
Proof.
  intros Hready Hparse Hn He Hcur Hq.
  rewrite (handleLine_other c line r Hready Hparse Hn He), Hcur. cbv zeta.
  now rewrite (checkQueue_nothing_queued c Hq).
Qed.

Lemma data_line_without_command_is_dropped_witness :
  handleLine {| queue := []; _current := None; _statusLines := 2 |}
             (js "clid=1 cid=4") =
  Returned {| queue := []; _current := None; _statusLines := 2 |} [].
Proof.
  apply (data_line_without_command_is_dropped _ _
           {| type := None;
              params := {| own := [(js "clid", VStr (js "1"));
                                   (js "cid", VStr (js "4"))];
                           rebound := None |} |}).
  - simpl. lia.
  - vm_compute. reflexivity.
  - reflexivity.
  - reflexivity.
  - reflexivity.
  - reflexivity.
Defined.

(** X14: a terminator whose fields hold no [id], or hold it more than
    once (the field is then a list, which is equal to no number), is not a
    success: the current command is rejected with the terminator's fields. *)
Theorem terminator_without_single_id_rejects (c : client) (line : str)
    (r : response) (cur : command) :
  (2 <= _statusLines c)%nat ->
  parse (trim line) = Some r ->
  is_error (type r) = true ->
  _current c = Some cur ->
  get (params r) (js "id") = None \/
  (exists a b more, get (params r) (js "id") = Some (VArr (a :: b :: more))) ->
  exists c' es,
    handleLine c line = Returned c' (Reject (promise cur) (params r) :: es) /\
    (c', es) = checkQueue (with_current c None).
Proof.
  intros Hready Hparse Htag Hcur Hid.
  exists (fst (checkQueue (with_current c None))),
         (snd (checkQueue (with_current c None))).
  split; [|now destruct (checkQueue _)].
  rewrite (handleLine_terminator c line r cur Hready Hparse Htag Hcur).
  assert (Hzero : field_is_zero (params r) (js "id") = false).
  { unfold field_is_zero. destruct Hid as [->|(a & b & more & ->)];
      [reflexivity|]. now destruct a. }
  now rewrite Hzero.
Qed.

Lemma terminator_without_single_id_rejects_witness :
  exists c' es,
    handleLine
      {| queue := [];
         _current := Some {| cmd := js "version"; promise := 0; data := None |};
         _statusLines := 2 |}
      (js "error id=0 id=0 msg=ok") =
      Returned c'
        (Reject 0 {| own := [(js "id", VArr [VStr (js "0"); VStr (js "0")]);
                             (js "msg", VStr (js "ok"))];
                     rebound := None |} :: es) /\
    (c', es) =
      checkQueue {| queue := []; _current := None; _statusLines := 2 |}.
Proof.
  apply (terminator_without_single_id_rejects
           {| queue := [];
              _current := Some {| cmd := js "version"; promise := 0;
                                  data := None |};
              _statusLines := 2 |}
           (js "error id=0 id=0 msg=ok")
           {| type := Some (js "error");
              params := {| own := [(js "id", VArr [VStr (js "0"); VStr (js "0")]);
                                   (js "msg", VStr (js "ok"))];
                           rebound := None |} |}
           {| cmd := js "version"; promise := 0; data := None |}).
  - simpl. lia.
  - vm_compute. reflexivity.
  - reflexivity.
  - reflexivity.
  - right. now exists (VStr (js "0")), (VStr (js "0")), [].
Defined.

(** ** What is written, and when *)

(** X15: no promise is settled twice, no command is written twice, and a
    promise is only settled after its command has been written. *)
Theorem settled_once_and_only_after_writing (events : list event) :
  NoDup (settled (log (run start events))) /\
  NoDup (written (log (run start events))) /\
  incl (settled (log (run start events))) (written (log (run start events))).
Proof.
  destruct (run_ok events start start_ok) as [H1 H2 _ _ _].
  rewrite H2. rewrite H1 at 1 3. repeat split; try apply seq_NoDup.
  intros p Hp. apply in_seq in Hp. apply in_seq. lia.
Qed.

Lemma written_texts_app (a b : list effect) :
  written_texts (a ++ b) = written_texts a ++ written_texts b.
Proof. apply flat_map_app. Qed.

Lemma texts_after_checkQueue (c : client) :
  written_texts (snd (checkQueue c)) ++ map wire_text (queue (fst (checkQueue c)))
  = map wire_text (queue c).
Proof.
  unfold checkQueue. destruct (_current c); [reflexivity|].
  destruct (queue c) eqn:Hq; simpl; [now rewrite Hq | reflexivity].
Qed.

Lemma texts_kept_by_checkQueue (c : client) (l pre : list effect) :
  written_texts pre = [] ->
  written_texts (l ++ pre ++ snd (checkQueue c))
    ++ map wire_text (queue (fst (checkQueue c)))
  = written_texts l ++ map wire_text (queue c).
Proof.
  intros Hpre. rewrite !written_texts_app, Hpre. simpl.
  now rewrite <- app_assoc, texts_after_checkQueue.
Qed.

Lemma texts_kept_plain (c : client) (l : list effect) :
  written_texts (l ++ snd (checkQueue c))
    ++ map wire_text (queue (fst (checkQueue c)))
  = written_texts l ++ map wire_text (queue c).
Proof. apply (texts_kept_by_checkQueue c l [] eq_refl). Qed.

Ltac name_checkQueue :=
  match goal with
  | |- context [checkQueue ?x] =>
      rewrite (surjective_pairing (checkQueue x)); cbv iota beta
  end.

Lemma step_texts (w : world) (e : event) :
  written_texts (log (step w e)) ++ map wire_text (queue (state (step w e))) =
  (written_texts (log w) ++ map wire_text (queue (state w)))
  ++ submitted_texts [e].
Proof.
  destruct e as [name opts rest | line]; cbn [step submitted_texts flat_map].
  - unfold send. cbn [_statusLines]. rewrite app_nil_r.
    destruct (1 <? _statusLines (state w))%nat.
    + name_checkQueue. cbn [state log].
      rewrite texts_kept_plain.
      cbn [queue]. now rewrite map_app, app_assoc.
    + cbn [state log queue]. now rewrite app_nil_r, map_app, app_assoc.
  - rewrite app_nil_r. unfold handleLine.
    destruct (_statusLines (state w) <? 2)%nat.
    + cbn [_statusLines].
      destruct (S (_statusLines (state w)) =? 2)%nat.
      * name_checkQueue. cbn [state log].
        now rewrite texts_kept_plain.
      * cbn [state log queue]. now rewrite app_nil_r.
    + destruct (parse (trim line)) as [r|];
        [|cbn [state log]; now rewrite app_nil_r].
      destruct (is_notify (type r)).
      { name_checkQueue. cbn [state log].
        change (log w ++ ?x :: ?es) with (log w ++ [x] ++ es).
        now rewrite texts_kept_by_checkQueue. }
      destruct (is_error (type r)).
      { destruct (_current (state w)) as [cur|]; [|reflexivity].
        name_checkQueue. cbn [state log].
        change (log w ++ ?x :: ?es) with (log w ++ [x] ++ es).
        rewrite texts_kept_by_checkQueue;
          [reflexivity | now destruct (field_is_zero _ _)]. }
      name_checkQueue. cbn [state log].
      rewrite texts_kept_plain.
      now destruct (_current (state w)).
Qed.

Lemma submitted_texts_app (a b : list event) :
  submitted_texts (a ++ b) = submitted_texts a ++ submitted_texts b.
Proof. apply flat_map_app. Qed.

(** X16: the socket gets exactly the commands submitted, each once, in the
    order of submission, each as its serialized text and one line feed: the
    texts written so far, followed by those of the commands still queued, are
    the texts of all the commands submitted.  Nothing else is ever written,
    and no command is skipped or reordered. *)
Theorem writes_are_the_submissions_in_order (events : list event) :
  written_texts (log (run start events))
    ++ map wire_text (queue (state (run start events)))
  = submitted_texts events.
Proof.
  induction events as [|e events IH] using rev_ind; [reflexivity|].
  now rewrite run_snoc, step_texts, IH, submitted_texts_app.
Qed.

Lemma send_while_busy (p : nat) (c : client) (name : str) (opts : options)
    (rest : list scalar) (cur : command) :
  _current c = Some cur ->
  send p c name opts rest =
    ({| queue := queue c ++ [{| cmd := serialize name opts rest; promise := p;
                                data := None |}];
        _current := Some cur; _statusLines := _statusLines c |}, []).
Proof.
  intros Hcur. unfold send. cbn [_statusLines]. rewrite Hcur.
  destruct (1 <? _statusLines c)%nat; reflexivity.
Qed.

Lemma step_without_terminator (w : world) (cur : command) (e : event) :
  (2 <= _statusLines (state w))%nat ->
  _current (state w) = Some cur ->
  no_terminator e = true ->
  exists cur',
    _current (state (step w e)) = Some cur' /\
    promise cur' = promise cur /\ cmd cur' = cmd cur /\
    (2 <= _statusLines (state (step w e)))%nat /\
    written (log (step w e)) = written (log w) /\
    settled (log (step w e)) = settled (log w).
Proof.
  intros Hready Hcur He.
  destruct e as [name opts rest | line]; cbn [step].
  - rewrite (send_while_busy _ _ _ _ _ cur Hcur). cbn [state log].
    exists cur. rewrite app_nil_r. now repeat split.
  - unfold no_terminator, is_terminator in He.
    unfold handleLine. rewrite (ready_test _ Hready).
    destruct (parse (trim line)) as [r|].
    2:{ exists cur. cbn [state log]. rewrite app_nil_r. now repeat split. }
    apply negb_true_iff in He.
    destruct (is_notify (type r)).
    { rewrite (checkQueue_busy _ cur Hcur). cbn [state log].
      exists cur. rewrite written_app, settled_app. simpl.
      rewrite !app_nil_r. now repeat split. }
    rewrite He, Hcur.
    rewrite (checkQueue_busy _ (with_data cur (params r))) by reflexivity.
    cbn [state log]. exists (with_data cur (params r)).
    rewrite app_nil_r. now repeat split.
Qed.

(** X17: there is no timeout: while a command is current and no
    terminator line arrives, it stays the current command whatever else
    happens.  Later submissions only queue up, and nothing more is written
    or settled. *)
Theorem current_command_waits_for_its_terminator (events : list event)
    (w : world) (cur : command) :
  (2 <= _statusLines (state w))%nat ->
  _current (state w) = Some cur ->
  forallb no_terminator events = true ->
  exists cur',
    _current (state (run w events)) = Some cur' /\
    promise cur' = promise cur /\ cmd cur' = cmd cur /\
    written (log (run w events)) = written (log w) /\
    settled (log (run w events)) = settled (log w).
Proof.
  revert w cur. induction events as [|e events IH]; intros w cur Hready Hcur Hev.
  - exists cur. now repeat split.
  - simpl in Hev. apply andb_true_iff in Hev as [He Hev]. rewrite run_cons.
    destruct (step_without_terminator w cur e Hready Hcur He)
      as (cur1 & Hc1 & Hp1 & Ht1 & Hr1 & Hw1 & Hs1).
    destruct (IH (step w e) cur1 Hr1 Hc1 Hev) as (cur2 & Hc2 & Hp2 & Ht2 & Hw2 & Hs2).
    exists cur2. repeat split; congruence.
Qed.

Lemma current_command_waits_for_its_terminator_witness :
  exists cur',
    _current
      (state
         (run {| state :=
                   {| queue := [];
                      _current := Some {| cmd := js "version"; promise := 0;
                                          data := None |};
                      _statusLines := 2 |};
                 log := [Write 0 (js "version" ++ [LF])]; promises := 1 |}
              [Line (js "version=3.13 build=1"); Line (js "ERROR id=0 msg=ok");
               Submit (js "whoami") Absent []; Line (js "notifyx a=1")]))
    = Some cur' /\
    promise cur' = 0%nat /\ cmd cur' = js "version" /\
    written
      (log
         (run {| state :=
                   {| queue := [];
                      _current := Some {| cmd := js "version"; promise := 0;
                                          data := None |};
                      _statusLines := 2 |};
                 log := [Write 0 (js "version" ++ [LF])]; promises := 1 |}
              [Line (js "version=3.13 build=1"); Line (js "ERROR id=0 msg=ok");
               Submit (js "whoami") Absent []; Line (js "notifyx a=1")]))
    = [0%nat] /\
    settled
      (log
         (run {| state :=
                   {| queue := [];
                      _current := Some {| cmd := js "version"; promise := 0;
                                          data := None |};
                      _statusLines := 2 |};
                 log := [Write 0 (js "version" ++ [LF])]; promises := 1 |}
              [Line (js "version=3.13 build=1"); Line (js "ERROR id=0 msg=ok");
               Submit (js "whoami") Absent []; Line (js "notifyx a=1")]))
    = [].
Proof.
  apply (current_command_waits_for_its_terminator
           [Line (js "version=3.13 build=1"); Line (js "ERROR id=0 msg=ok");
            Submit (js "whoami") Absent []; Line (js "notifyx a=1")]
           {| state :=
                {| queue := [];
                   _current := Some {| cmd := js "version"; promise := 0;
                                       data := None |};
                   _statusLines := 2 |};
              log := [Write 0 (js "version" ++ [LF])]; promises := 1 |}
           {| cmd := js "version"; promise := 0; data := None |}).
  - simpl. lia.
  - reflexivity.
  - vm_compute. reflexivity.
Defined.

(** ** Fields *)

Lemma words_have_no_backslash (w : str) :
  forallb is_word w = true -> has backslash w = false.
Proof.
  induction w as [|c w IH]; [reflexivity|]. cbn [forallb].
  rewrite andb_true_iff. intros [Hc Hw]. unfold has in *. cbn [existsb].
  rewrite (IH Hw), orb_false_r. apply N.eqb_neq. intros <-. discriminate Hc.
Qed.

Lemma words_are_not_equals (w : str) :
  forallb is_word w = true -> forallb not_equals w = true.
Proof.
  induction w as [|c w IH]; [reflexivity|]. cbn [forallb].
  rewrite !andb_true_iff. intros [Hc Hw]. split; [|now apply IH].
  unfold not_equals. apply negb_true_iff, N.eqb_neq. intros ->. discriminate Hc.
Qed.

Lemma assoc_set_keys (k : str) (v : value) (props : list (str * value))
    (k' : str) (v' : value) :
  In (k', v') (assoc_set k v props) ->
  k' = k \/ exists v'', In (k', v'') props.
Proof.
  induction props as [|[k0 v0] props IH]; simpl.
  - intros [E|[]]. injection E as <- _. now left.
  - destruct (str_eqb k k0).
    + intros [E|Hin]; [injection E as <- _; now left|].
      right. exists v'. now right.
    + intros [E|Hin].
      * injection E as <- <-. right. exists v0. now left.
      * destruct (IH Hin) as [->|[v'' H]]; [now left|].
        right. exists v''. now right.
Qed.

Lemma set_named_by_words (o : object) (k : str) (v : value) :
  named_by_words o -> k <> [] -> forallb is_word k = true ->
  named_by_words (set o k v).
Proof.
  intros Ho Hk Hw. unfold set.
  destruct (str_eqb k proto_key); [now destruct v|].
  intros k' v' Hin. cbn [own] in Hin.
  apply assoc_set_keys in Hin as [->|[v'' Hin]]; [now split | now apply (Ho k' v'')].
Qed.

Lemma push_named_by_words (o : object) (k : str) (items : list value) (v : value) :
  named_by_words o -> k <> [] -> forallb is_word k = true ->
  named_by_words (push o k items v).
Proof.
  intros Ho Hk Hw. unfold push.
  destruct (assoc k (own o)).
  - intros k' v' Hin. cbn [own] in Hin.
    apply assoc_set_keys in Hin as [->|[v'' Hin]]; [now split | now apply (Ho k' v'')].
  - destruct (str_eqb k proto_key); [exact Ho|].
    destruct (rebound o); [|exact Ho].
    destruct (index_of_key k); exact Ho.
Qed.

Lemma add_field_named_by_words (o : object) (t : str) :
  named_by_words o -> token_shape t -> named_by_words (add_field o t).
Proof.
  intros Ho (key & val & -> & Hk & Hw & _).
  rewrite (add_field_stores o key val (words_are_not_equals key Hw)). cbv zeta.
  rewrite (unescape_without_backslash key (words_have_no_backslash key Hw)).
  destruct (get o key) as [held|]; [|now apply set_named_by_words].
  destruct held; solve [now apply set_named_by_words | now apply push_named_by_words].
Qed.

Lemma fold_add_field_named_by_words (tokens : list str) (o : object) :
  named_by_words o -> Forall token_shape tokens ->
  named_by_words (fold_left add_field tokens o).
Proof.
  revert o. induction tokens as [|t tokens IH]; intros o Ho Hall; [exact Ho|].
  inversion Hall as [|? ? Ht Hrest]; subst. simpl.
  apply IH; [now apply add_field_named_by_words | exact Hrest].
Qed.

(** Behind the first token every token is a pair, and so is the first one
    when it holds a [=]. *)
Lemma match_all_tokens (s first : str) (others : list str) :
  match_all s = first :: others ->
  Forall token_shape others /\ (has equals first = true -> token_shape first).
Proof.
  destruct s as [|c tail]; [discriminate|].
  assert (Hall : match_all (c :: tail) =
                 match match_at true (c :: tail) with
                 | Some (token, rest) =>
                     token :: match_from (List.length (c :: tail)) false rest
                 | None => match_from (List.length (c :: tail)) false tail
                 end) by reflexivity.
  rewrite Hall. clear Hall.
  remember (List.length (c :: tail)) as n eqn:Hn. clear Hn.
  remember (c :: tail) as s eqn:Hs. clear Hs.
  unfold match_at, keyword_error_at.
  destruct (literal_ci (js "error") s) as [rest|] eqn:Herr.
  { intros E. injection E as <- <-. split; [apply later_tokens_are_pairs|].
    pose proof (literal_ci_prefix (js "error") s rest eq_refl Herr) as Hf.
    change (List.length (js "error")) with 5%nat in Hf.
    intros H. change (has equals (firstn 5 s) = true) in H. congruence. }
  unfold keyword_notify_at.
  destruct (literal_ci (js "notify") s) as [after|] eqn:Hnot.
  - destruct (span is_word after) as [word rest] eqn:Ew.
    destruct (nonempty word).
    + intros E. injection E as <- <-. split; [apply later_tokens_are_pairs|].
      pose proof (literal_ci_prefix (js "notify") s after eq_refl Hnot) as Hf.
      change (List.length (js "notify")) with 6%nat in Hf.
      intros H. change (has equals (firstn 6 s ++ word) = true) in H.
      rewrite has_app, Hf, (words_have_no_equals word (span_holds _ _ _ _ Ew)) in H.
      discriminate.
    + destruct (key_value_at s) as [[t rest']|] eqn:Ek.
      * intros E. injection E as <- <-. split; [apply later_tokens_are_pairs|].
        intros _. now apply (key_value_at_shape _ _ _ Ek).
      * intros E. pose proof (later_tokens_are_pairs n tail) as Hall.
        rewrite E in Hall. inversion Hall; subst. now split.
  - destruct (key_value_at s) as [[t rest']|] eqn:Ek.
    + intros E. injection E as <- <-. split; [apply later_tokens_are_pairs|].
      intros _. now apply (key_value_at_shape _ _ _ Ek).
    + intros E. pose proof (later_tokens_are_pairs n tail) as Hall.
      rewrite E in Hall. inversion Hall; subst. now split.
Qed.

(** X18: every field of a parsed line has a name: a nonempty run of
    letters, digits and underscores.  No line makes [parse] create a field
    with an empty name or with any other character in it. *)
Theorem fields_are_named_by_words (s : str) (r : response) (k : str) (v : value) :
  parse s = Some r -> In (k, v) (own (params r)) ->
  k <> [] /\ forallb is_word k = true.
Proof.
  intros Hparse. unfold parse in Hparse.
  destruct (match_all s) as [|first others] eqn:Em; [discriminate|].
  destruct (match_all_tokens s first others Em) as [Hothers Hfirst].
  fold (has equals first) in Hparse.
  assert (Hempty : named_by_words empty_object) by (intros ? ? []).
  destruct (has equals first) eqn:Hf; simpl in Hparse; injection Hparse as <-;
    cbn [params].
  - apply (fold_add_field_named_by_words (first :: others) empty_object Hempty).
    constructor; [now apply Hfirst | exact Hothers].
  - now apply (fold_add_field_named_by_words others empty_object Hempty).
Qed.

Lemma fields_are_named_by_words_witness :
  js "client_id" <> [] /\ forallb is_word (js "client_id") = true.
Proof.
  apply (fields_are_named_by_words
           (js "notifycliententerview client_id=1 client_id=2 a=b\sc")
           {| type := Some (js "notifycliententerview");
              params := {| own := [(js "client_id",
                                    VArr [VStr (js "1"); VStr (js "2")]);
                                   (js "a", VStr (js "b c"))];
                           rebound := None |} |}
           (js "client_id") (VArr [VStr (js "1"); VStr (js "2")])).
  - vm_compute. reflexivity.
  - left. reflexivity.
Defined.

(** ** From the command text back to the fields *)

Lemma literal_ci_stops_at_equals (pat k t : str) :
  forallb (fun p => negb (fold_case p =? equals)) pat = true ->
  literal_ci pat k = None ->
  literal_ci pat (k ++ equals :: t) = None.
Proof.
  revert k. induction pat as [|p pat IH]; intros k Hpat; [discriminate|].
  cbn [forallb] in Hpat. apply andb_true_iff in Hpat as [Hp Hpat].
  destruct k as [|c k]; cbn [literal_ci app].
  - intros _. apply negb_true_iff, N.eqb_neq in Hp.
    destruct (N.eqb_spec (fold_case equals) (fold_case p)) as [E|]; [|reflexivity].
    elim Hp. now rewrite <- E.
  - destruct (fold_case c =? fold_case p); [now apply IH | reflexivity].
Qed.

Lemma forallb_flat_map (p : char -> bool) (f : char -> str) (s : str) :
  (forall c, In c s -> forallb p (f c) = true) ->
  forallb p (flat_map f s) = true.
Proof.
  induction s as [|c s IH]; intros H; [reflexivity|].
  cbn [flat_map]. rewrite forallb_app, (H c) by now left.
  apply IH. intros c' Hc'. apply H. now right.
Qed.

Lemma escape_char_cases (c : char) :
  (is_reserved c = false /\ escape_char c = [c]) \/
  (is_reserved c = true /\
   exists x, escape_char c = [backslash; x] /\
             In x [92; 47; 112; 110; 114; 116; 118; 102; 115]).
Proof.
  rewrite escape_char_full. unfold written_with, is_reserved.
  destruct (lookup c full_table) as [x|] eqn:E; [right | left; now split].
  split; [reflexivity|]. exists x. split; [reflexivity|].
  now apply (full_table_rows c x).
Qed.

Lemma escape_keeps_value_chars (v : str) :
  forallb (fun c => is_reserved c || is_value_char c) v = true ->
  forallb is_value_char (escape v) = true.
Proof.
  intros Hv. rewrite escape_flat_map. apply forallb_flat_map. intros c Hc.
  rewrite forallb_forall in Hv. specialize (Hv c Hc).
  destruct (escape_char_cases c) as [[Hr ->]|[_ (x & -> & Hx)]].
  - rewrite Hr in Hv. simpl in *. now rewrite Hv.
  - simpl in Hx.
    repeat (destruct Hx as [<-|Hx]; [reflexivity|]). contradiction.
Qed.

Lemma escape_adds_no_equals (v : str) :
  has equals v = false -> has equals (escape v) = false.
Proof.
  rewrite escape_flat_map. induction v as [|c v IH]; [reflexivity|].
  unfold has at 1. cbn [existsb flat_map]. rewrite orb_false_iff, N.eqb_neq.
  intros [Hc Hv]. rewrite has_app, (IH Hv), orb_false_r.
  destruct (escape_char_cases c) as [[_ ->]|[_ (x & -> & Hx)]].
  - unfold has. cbn [existsb]. rewrite orb_false_r. now apply N.eqb_neq.
  - simpl in Hx.
    repeat (destruct Hx as [<-|Hx]; [reflexivity|]). contradiction.
Qed.

Lemma escape_nonempty (v : str) : v <> [] -> escape v <> [].
Proof.
  rewrite escape_flat_map. destruct v as [|c v]; [congruence|]. intros _.
  cbn [flat_map].
  destruct (escape_char_cases c) as [[_ ->]|[_ (x & -> & _)]]; discriminate.
Qed.

Lemma words_are_unreserved (w : str) :
  forallb is_word w = true -> forallb (fun c => negb (is_reserved c)) w = true.
Proof.
  intros Hw. apply forallb_forall. intros c Hc.
  rewrite forallb_forall in Hw. specialize (Hw c Hc).
  unfold is_reserved. destruct (lookup c full_table) as [x|] eqn:E; [|reflexivity].
  apply full_table_rows in E as [Hin _]. simpl in Hin.
  repeat (destruct Hin as [<-|Hin]; [discriminate Hw|]). contradiction.
Qed.

Lemma without_equals (s : str) :
  has equals s = false -> forallb not_equals s = true.
Proof.
  induction s as [|c s IH]; [reflexivity|].
  unfold has. cbn [existsb forallb]. rewrite orb_false_iff.
  intros [Hc Hs]. rewrite (IH Hs), andb_true_r. unfold not_equals.
  rewrite N.eqb_sym. now rewrite Hc.
Qed.

Lemma single_pair_tokens (k ev : str) :
  k <> [] -> forallb is_word k = true ->
  literal_ci (js "error") k = None -> literal_ci (js "notify") k = None ->
  ev <> [] -> forallb is_value_char ev = true ->
  match_all (k ++ equals :: ev) = [k ++ equals :: ev].
Proof.
  intros Hk Hw Herr Hnot Hev Hval.
  destruct k as [|c k]; [congruence|].
  assert (Hall : match_all ((c :: k) ++ equals :: ev) =
                 match match_at true ((c :: k) ++ equals :: ev) with
                 | Some (token, rest) =>
                     token :: match_from
                                (List.length ((c :: k) ++ equals :: ev)) false rest
                 | None =>
                     match_from (List.length ((c :: k) ++ equals :: ev)) false
                                (k ++ equals :: ev)
                 end) by reflexivity.
  rewrite Hall. clear Hall.
  remember (List.length ((c :: k) ++ equals :: ev)) as n eqn:Hn. clear Hn.
  remember (c :: k) as key eqn:Hkey.
  unfold match_at, keyword_error_at, keyword_notify_at.
  rewrite (literal_ci_stops_at_equals (js "error") key ev eq_refl Herr).
  rewrite (literal_ci_stops_at_equals (js "notify") key ev eq_refl Hnot).
  unfold key_value_at.
  rewrite (span_stops is_word key (equals :: ev) Hw eq_refl).
  rewrite (proj2 (nonempty_true key)) by (subst key; discriminate).
  rewrite N.eqb_refl. cbn [andb].
  rewrite <- (app_nil_r ev) at 1.
  rewrite (span_stops is_value_char ev [] Hval I).
  rewrite (proj2 (nonempty_true ev) Hev).
  now destruct n.
Qed.

(** X19: [parse] reads back what [send] writes for a parameter.  For a key
    of word characters that does not begin with a keyword of the pattern and
    is not the name of an inherited property, and a nonempty value without
    [=] whose white space is of the kinds that [escape] rewrites and in
    which no backslash stands before one of the letters p, n, r, t, v, f, s,
    parsing the text [escape(key)=escape(value)] gives the single field
    [key] with the value as it was. *)
Theorem parse_reads_back_a_parameter (k v : str) :
  k <> [] -> forallb is_word k = true ->
  literal_ci (js "error") k = None -> literal_ci (js "notify") k = None ->
  get empty_object k = None ->
  v <> [] -> has equals v = false ->
  forallb (fun c => is_reserved c || is_value_char c) v = true ->
  no_backslash_before is_escape_letter v = true ->
  parse (Wording.pair_text k (SStr v)) =
    Some {| type := None;
            params := {| own := [(k, VStr v)]; rebound := None |} |}.
Proof.
  intros Hk Hw Herr Hnot Hget Hv Heq Hchars Hletters.
  unfold Wording.pair_text. cbn [String_ app].
  rewrite (escape_unreserved k (words_are_unreserved k Hw)).
  pose proof (escape_keeps_value_chars v Hchars) as Hval.
  pose proof (escape_adds_no_equals v Heq) as Hev.
  pose proof (single_pair_tokens k (escape v) Hk Hw Herr Hnot
                (escape_nonempty v Hv) Hval) as Htokens.
  rewrite (parse_of_tokens _ _ _ Htokens).
  rewrite has_app. cbn [has existsb]. rewrite N.eqb_refl, orb_true_r. cbn [negb].
  cbn [fold_left].
  rewrite (add_field_stores empty_object k (escape v) (words_are_not_equals k Hw)).
  cbv zeta.
  rewrite (unescape_without_backslash k (words_have_no_backslash k Hw)), Hget.
  rewrite <- (app_nil_r (escape v)) at 1.
  rewrite (span_stops not_equals (escape v) [] (without_equals _ Hev) I).
  cbn [fst]. rewrite (unescape_escape_away_from_letters v Hletters).
  unfold set. destruct (str_eqb k proto_key) eqn:Hproto.
  - apply str_eqb_eq in Hproto. subst k. discriminate Hget.
  - reflexivity.
Qed.

Lemma parse_reads_back_a_parameter_witness :
  parse (Wording.pair_text (js "msg") (SStr (js "C:\dir/a b|c"))) =
    Some {| type := None;
            params := {| own := [(js "msg", VStr (js "C:\dir/a b|c"))];
                         rebound := None |} |}.
Proof.
  apply parse_reads_back_a_parameter; try (vm_compute; reflexivity);
    discriminate.
Defined.

(** ** What is published *)

Lemma emitted_app (a b : list effect) : emitted (a ++ b) = emitted a ++ emitted b.
Proof. apply flat_map_app. Qed.

Lemma checkQueue_emits_nothing (c : client) : emitted (snd (checkQueue c)) = [].
Proof.
  unfold checkQueue. destruct (_current c); [reflexivity|].
  destruct (queue c); reflexivity.
Qed.

Lemma lines_of_length (events : list event) :
  List.length (lines_of events) = lines_among events.
Proof.
  unfold lines_among. induction events as [|[name opts rest|line] events IH];
    simpl; [reflexivity | exact IH | now rewrite IH].
Qed.

Lemma lines_of_app (a b : list event) : lines_of (a ++ b) = lines_of a ++ lines_of b.
Proof. apply flat_map_app. Qed.

Ltac nothing_emitted :=
  cbn [log]; rewrite ?emitted_app, ?checkQueue_emits_nothing, ?app_nil_r;
  try reflexivity.

Lemma step_emitted (w : world) (e : event) :
  emitted (log (step w e)) =
  emitted (log w) ++
    match e with
    | Line line =>
        if (_statusLines (state w) <? 2)%nat then [] else notification_of line
    | Submit _ _ _ => []
    end.
Proof.
  destruct e as [name opts rest | line]; cbn [step].
  - unfold send. cbn [_statusLines].
    destruct (1 <? _statusLines (state w))%nat;
      [name_checkQueue|]; nothing_emitted.
  - unfold handleLine, notification_of.
    destruct (_statusLines (state w) <? 2)%nat.
    + cbn [_statusLines]. destruct (S (_statusLines (state w)) =? 2)%nat;
        [name_checkQueue|]; nothing_emitted.
    + destruct (parse (trim line)) as [r|]; [|nothing_emitted].
      destruct (is_notify (type r)).
      { name_checkQueue. cbn [log].
        change (log w ++ ?x :: ?es) with (log w ++ [x] ++ es).
        now rewrite !emitted_app, checkQueue_emits_nothing. }
      destruct (is_error (type r)).
      { destruct (_current (state w)); [|now rewrite app_nil_r].
        name_checkQueue. cbn [log].
        change (log w ++ ?x :: ?es) with (log w ++ [x] ++ es).
        rewrite !emitted_app, checkQueue_emits_nothing.
        destruct (field_is_zero _ _); cbn [emitted flat_map app];
          now rewrite !app_nil_r. }
      name_checkQueue. nothing_emitted.
Qed.

(** X20: the events published are exactly the notification lines received
    after the two banner lines, one event per line and in the order of
    arrival, each with the name behind [notify], the fields parsed and the
    trimmed line; no other line and no call of [send] publishes anything. *)
Theorem events_are_the_notification_lines (events : list event) :
  emitted (log (run start events)) =
  flat_map notification_of (skipn 2 (lines_of events)).
Proof.
  induction events as [|e events IH] using rev_ind; [reflexivity|].
  rewrite run_snoc, step_emitted, IH, statusLines_run, lines_of_app.
  pose proof (lines_of_length events) as Hlen.
  destruct e as [name opts rest | line]; cbn [lines_of flat_map app].
  - now rewrite !app_nil_r.
  - destruct (Nat.ltb_spec (Nat.min 2 (lines_among events)) 2) as [Hlt|Hge].
    + rewrite app_nil_r.
      rewrite !skipn_all2 by (rewrite ?length_app; cbn [List.length]; lia).
      reflexivity.
    + rewrite skipn_app.
      replace (2 - List.length (lines_of events))%nat with 0%nat by lia.
      cbn [skipn]. rewrite flat_map_app. cbn [flat_map].
      now rewrite app_nil_r.
Qed.

(** ** Lists of values *)

Lemma match_from_step (n : nat) (b : bool) (s : str) :
  s <> [] ->
  match_from (S n) b s =
    match match_at b s with
    | Some (token, rest) => token :: match_from n false rest
    | None => match_from n false (tl s)
    end.
Proof. destruct s; [congruence | reflexivity]. Qed.

Section ListOfValues.

Variable k : str.
Hypothesis k_nonempty : k <> [].
Hypothesis k_word : forallb is_word k = true.
Hypothesis k_no_error : literal_ci (js "error") k = None.
Hypothesis k_no_notify : literal_ci (js "notify") k = None.
Hypothesis k_not_inherited : get empty_object k = None.

Lemma match_at_on_pair (b : bool) (tail : str) :
  match_at b (k ++ equals :: tail) = key_value_at (k ++ equals :: tail).
Proof.
  unfold match_at, keyword_error_at, keyword_notify_at.
  rewrite (literal_ci_stops_at_equals (js "error") k tail eq_refl k_no_error).
  rewrite (literal_ci_stops_at_equals (js "notify") k tail eq_refl k_no_notify).
  now destruct b.
Qed.

Lemma key_value_at_pair (ev rest : str) :
  ev <> [] -> forallb is_value_char ev = true ->
  match rest with c :: _ => is_value_char c = false | [] => True end ->
  key_value_at (k ++ equals :: ev ++ rest) = Some (k ++ equals :: ev, rest).
Proof.
  intros Hev Hval Hrest. unfold key_value_at.
  rewrite (span_stops is_word k (equals :: ev ++ rest) k_word eq_refl).
  rewrite (proj2 (nonempty_true k) k_nonempty), N.eqb_refl. cbn [andb].
  rewrite (span_stops is_value_char ev rest Hval Hrest).
  now rewrite (proj2 (nonempty_true ev) Hev).
Qed.

Lemma match_from_joined (vals : list str) :
  Forall carried vals ->
  forall n b,
    (List.length (join [pipe] (map (fun v => k ++ equals :: escape v) vals)) < n)%nat ->
    match_from n b (join [pipe] (map (fun v => k ++ equals :: escape v) vals)) =
    map (fun v => k ++ equals :: escape v) vals.
Proof.
  induction 1 as [|v vals (Hv & Heq & Hchars & _) Hrest IH]; intros n b Hn.
  - destruct n; reflexivity.
  - destruct n as [|n]; [lia|].
    pose proof (escape_nonempty v Hv) as Hev.
    pose proof (escape_keeps_value_chars v Hchars) as Hval.
    cbn [map] in *.
    destruct vals as [|v' vals].
    + cbn [map join] in *.
      rewrite match_from_step by (intros E; now apply app_eq_nil in E).
      rewrite match_at_on_pair.
      rewrite <- (app_nil_r (escape v)) at 1.
      rewrite (key_value_at_pair (escape v) [] Hev Hval I).
      now destruct n.
    + cbn [map] in *.
      change (join [pipe] ((k ++ equals :: escape v)
                           :: (k ++ equals :: escape v')
                           :: map (fun v => k ++ equals :: escape v) vals))
        with ((k ++ equals :: escape v) ++ [pipe] ++
              join [pipe] ((k ++ equals :: escape v')
                           :: map (fun v => k ++ equals :: escape v) vals)) in *.
      set (J := join [pipe] ((k ++ equals :: escape v')
                             :: map (fun v => k ++ equals :: escape v) vals)) in *.
      rewrite <- app_assoc in *. cbn [app] in *.
      rewrite match_from_step by (intros E; now apply app_eq_nil in E).
      rewrite match_at_on_pair.
      rewrite (key_value_at_pair (escape v) (pipe :: J) Hev Hval eq_refl).
      f_equal.
      assert (Hlen : (S (List.length J) < n)%nat).
      { rewrite length_app in Hn. cbn [List.length] in Hn.
        rewrite length_app in Hn. cbn [List.length] in Hn. lia. }
      destruct n as [|n]; [lia|].
      rewrite match_from_step by discriminate.
      change (match_at false (pipe :: J)) with (key_value_at (pipe :: J)).
      assert (Hpipe : key_value_at (pipe :: J) = None) by reflexivity.
      rewrite Hpipe. apply IH. lia.
Qed.

Lemma add_field_pair (o : object) (v : str) :
  carried v ->
  add_field o (k ++ equals :: escape v) =
    match get o k with
    | Some (VArr items) => push o k items (VStr v)
    | Some held => set o k (VArr [held; VStr v])
    | None => set o k (VStr v)
    end.
Proof.
  intros (Hv & Heq & Hchars & Hletters).
  rewrite (add_field_stores o k (escape v) (words_are_not_equals k k_word)).
  cbv zeta.
  rewrite (unescape_without_backslash k (words_have_no_backslash k k_word)).
  assert (Hspan : span not_equals (escape v) = (escape v, [])).
  { rewrite <- (app_nil_r (escape v)) at 1.
    apply (span_stops not_equals (escape v) []
             (without_equals _ (escape_adds_no_equals v Heq)) I). }
  rewrite Hspan. cbn [fst].
  now rewrite (unescape_escape_away_from_letters v Hletters).
Qed.

Lemma k_is_not_proto : str_eqb k proto_key = false.
Proof.
  destruct (str_eqb k proto_key) eqn:E; [|reflexivity].
  apply str_eqb_eq in E. rewrite E in k_not_inherited. discriminate.
Qed.

Lemma fold_add_field_appends (vals : list str) (items : list value) :
  Forall carried vals ->
  fold_left add_field (map (fun v => k ++ equals :: escape v) vals)
            {| own := [(k, VArr items)]; rebound := None |} =
  {| own := [(k, VArr (items ++ map VStr vals))]; rebound := None |}.
Proof.
  intros Hall. revert items.
  induction Hall as [|v vals Hv Hrest IH]; intros items.
  - simpl. now rewrite app_nil_r.
  - cbn [map fold_left]. rewrite (add_field_pair _ v Hv).
    unfold get, push. cbn [own assoc]. rewrite (proj2 (str_eqb_eq k k) eq_refl).
    cbn [assoc_set rebound]. rewrite (proj2 (str_eqb_eq k k) eq_refl).
    rewrite IH. now rewrite <- app_assoc.
Qed.

(** The pipe-joined run that [send] writes for a list of two or more
    values is parsed back as the list of these values, in order. *)
Lemma parse_joined_list (v1 v2 : str) (vs : list str) :
  Forall carried (v1 :: v2 :: vs) ->
  parse (Wording.token (k, Many (map SStr (v1 :: v2 :: vs)))) =
    Some {| type := None;
            params := {| own := [(k, VArr (map VStr (v1 :: v2 :: vs)))];
                         rebound := None |} |}.
Proof.
  intros Hall.
  assert (Htext : Wording.token (k, Many (map SStr (v1 :: v2 :: vs))) =
                  join [pipe] (map (fun v => k ++ equals :: escape v)
                                   (v1 :: v2 :: vs))).
  { unfold Wording.token. cbn [snd fst]. rewrite map_map. f_equal.
    apply map_ext. intros v. unfold Wording.pair_text. cbn [String_ app].
    now rewrite (escape_unreserved k (words_are_unreserved k k_word)). }
  rewrite Htext.
  assert (Htokens : match_all (join [pipe] (map (fun v => k ++ equals :: escape v)
                                                (v1 :: v2 :: vs))) =
                    map (fun v => k ++ equals :: escape v) (v1 :: v2 :: vs)).
  { unfold match_all. apply (match_from_joined _ Hall). lia. }
  cbn [map] in Htokens |- *. rewrite (parse_of_tokens _ _ _ Htokens).
  rewrite has_app. cbn [has existsb]. rewrite N.eqb_refl, orb_true_r. cbn [negb].
  inversion Hall as [|? ? H1 Hall']; subst.
  inversion Hall' as [|? ? H2 Hrest]; subst.
  cbn [fold_left].
  rewrite (add_field_pair _ v1 H1), k_not_inherited.
  unfold set at 1. rewrite k_is_not_proto.
  change (assoc_set k (VStr v1) (own empty_object)) with [(k, VStr v1)].
  change (rebound empty_object) with (@None (list value)).
  rewrite (add_field_pair _ v2 H2).
  unfold get at 1. cbn [own assoc]. rewrite (proj2 (str_eqb_eq k k) eq_refl).
  unfold set. rewrite k_is_not_proto. cbn [own assoc_set rebound].
  rewrite (proj2 (str_eqb_eq k k) eq_refl).
  now rewrite (fold_add_field_appends vs [VStr v1; VStr v2] Hrest).
Qed.

End ListOfValues.

(** X21: [parse] reads back the list that [send] writes.  For a key as in
    X19 and two or more values, each nonempty, without [=], with white space
    only of the kinds that [escape] rewrites and with no backslash before one
    of the letters p, n, r, t, v, f, s, parsing the pipe-joined run of
    [escape(key)=escape(value)] pairs gives the single field [key] holding
    the list of the values in their order. *)
Theorem parse_reads_back_a_list (k v1 v2 : str) (vs : list str) :
  k <> [] -> forallb is_word k = true ->
  literal_ci (js "error") k = None -> literal_ci (js "notify") k = None ->
  get empty_object k = None ->
  Forall carried (v1 :: v2 :: vs) ->
  parse (Wording.token (k, Many (map SStr (v1 :: v2 :: vs)))) =
    Some {| type := None;
            params := {| own := [(k, VArr (map VStr (v1 :: v2 :: vs)))];
                         rebound := None |} |}.
Proof. intros. now apply parse_joined_list. Qed.

Lemma parse_reads_back_a_list_witness :
  parse (Wording.token (js "clid", Many (map SStr [js "1"; js "2 3"; js "a|b"]))) =
    Some {| type := None;
            params := {| own := [(js "clid",
                                  VArr (map VStr [js "1"; js "2 3"; js "a|b"]))];
                         rebound := None |} |}.
Proof.
  apply parse_reads_back_a_list; try (vm_compute; reflexivity);
    try discriminate.
  repeat constructor; solve [discriminate | vm_compute; reflexivity].
Defined.
